(** * The e-mail campaign manager

    A shallow embedding of the methods of [EmailCampaignManager]
    (src/gmail_test.py): validation, contacts, contact lists, templates,
    personalization, sending and campaigns, and their properties.

    Conventions of the embedding.
    - A Python [str] is a [string]; its characters are the code points
      below 256.
    - A Python [int] is a [Z]; [len] of a list is [Z.of_nat (length _)].
    - MongoDB identifiers are opaque string handles, and a collection
      is a [gmap] from the handle of a document to the document.
    - The module [pymongo] has no attribute [ObjectId] (the class lives
      in [bson], which the source does not import): evaluating
      [pymongo.ObjectId] raises [AttributeError].
    - Documents of the contacts, templates and contact_lists collections
      are represented by the dataclass value they decode to.
    - The storage is reliable: [find_one], [insert_one] and [update_one]
      do not raise.  The calls to [logger] leave no trace in the model. *)

From Stdlib Require Import ZArith Ascii String.
From stdpp Require Import gmap strings list.

Local Open Scope Z_scope.

(** ** Python string operations used by the module *)

Module PyStr.

(** [interleave new s] is [s.replace("", new)]: [new] before every
    character and at the end. *)
Fixpoint interleave (new s : string) : string :=
  match s with
  | EmptyString => new
  | String c s' => new +:+ String c (interleave new s')
  end.

(** The scan of [str.replace] for a non-empty [old]: left to right,
    occurrences do not overlap.  [skip] counts the characters of the
    occurrence just replaced that are still to be passed over. *)
Fixpoint replace_from (old new : string) (skip : nat) (s : string) : string :=
  match s with
  | EmptyString => EmptyString
  | String c s' =>
      match skip with
      | S k => replace_from old new k s'
      | O =>
          if String.prefix old s
          then new +:+ replace_from old new (pred (String.length old)) s'
          else String c (replace_from old new 0 s')
      end
  end.

(** [replace old new s] is [s.replace(old, new)]. *)
Definition replace (old new s : string) : string :=
  match old with
  | EmptyString => interleave new s
  | String _ _ => replace_from old new 0 s
  end.

(** [isspace c] is [c.isspace()] on the code points below 256. *)
Definition isspace (c : ascii) : bool :=
  let n := nat_of_ascii c in
  ((9 <=? n)%nat && (n <=? 13)%nat) || ((28 <=? n)%nat && (n <=? 32)%nat)
  || (n =? 133)%nat || (n =? 160)%nat.

Fixpoint lstrip (s : string) : string :=
  match s with
  | EmptyString => EmptyString
  | String c s' => if isspace c then lstrip s' else s
  end.

Fixpoint rstrip (s : string) : string :=
  match s with
  | EmptyString => EmptyString
  | String c s' =>
      match rstrip s' with
      | EmptyString => if isspace c then EmptyString else String c EmptyString
      | r => String c r
      end
  end.

(** [strip s] is [s.strip()]. *)
Definition strip (s : string) : string := rstrip (lstrip s).

End PyStr.

(** ** Data model *)

(** [custom_fields] is a dict: its items in insertion order. *)
Record Contact := {
  email : string;
  first_name : string;
  last_name : string;
  company : string;
  custom_fields : list (string * string)
}.

(** ** Personalization *)

(** The items of the dict [placeholders], in insertion order. *)
Definition placeholders (contact : Contact) : list (string * string) :=
  [ ("{{first_name}}", first_name contact);
    ("{{last_name}}", last_name contact);
    ("{{email}}", email contact);
    ("{{company}}", company contact);
    ("{{full_name}}",
      PyStr.strip (first_name contact +:+ " " +:+ last_name contact)) ].

(** The placeholder built for a custom field. *)
Definition custom_placeholder (field_name : string) : string :=
  "{{custom." +:+ field_name +:+ "}}".

(** One pass of [content = content.replace(placeholder, value)] per item. *)
Definition replace_each (items : list (string * string)) (content : string) : string :=
  foldl (fun content item => PyStr.replace item.1 item.2 content) content items.

Definition personalize_email (template_content : string) (contact : Contact) : string :=
  let content := replace_each (placeholders contact) template_content in
  match custom_fields contact with
  | [] => content
  | fields =>
      replace_each
        (map (fun field => (custom_placeholder field.1, field.2)) fields)
        content
  end.

(** ** Documents *)

(** [datetime]: a point in time. *)
Definition datetime := nat.

Inductive EmailStatus := PENDING | SENT | FAILED | BOUNCED.

Definition EmailStatus_value (s : EmailStatus) : string :=
  match s with
  | PENDING => "pending"
  | SENT => "sent"
  | FAILED => "failed"
  | BOUNCED => "bounced"
  end.

Module EmailTemplate.
Record t := mk {
  name : string;
  subject : string;
  body : string;
  html_body : string;
  created_at : datetime
}.
End EmailTemplate.

(** [self.personalize_email(template.html_body, contact) if
    template.html_body else ""]. *)
Definition personalize_html (template : EmailTemplate.t) (contact : Contact) : string :=
  if decide (EmailTemplate.html_body template = "") then ""
  else personalize_email (EmailTemplate.html_body template) contact.

(** A document of the contact_lists collection. *)
Module ContactList.
Record t := mk {
  name : string;
  description : string;
  contact_ids : list string
}.
End ContactList.

(** A value stored under a key of a campaign document. *)
Inductive Value :=
  | VStr (s : string)
  | VInt (n : Z)
  | VDatetime (t : datetime)
  | VNone.

(** The dataclass [Campaign]. *)
Module Campaign.
Record t := mk {
  name : string;
  template_id : string;
  contact_list_ids : list string;
  created_at : datetime;
  sent_at : option datetime;
  status : string;
  total_recipients : Z;
  sent_count : Z;
  failed_count : Z
}.

(** [Campaign(name=.., template_id=.., contact_list_ids=..)], created at
    time [now]. *)
Definition new (name template_id : string) (contact_list_ids : list string)
    (now : datetime) : t :=
  mk name template_id contact_list_ids now None "draft" 0 0 0.
End Campaign.

(** A document of the campaigns collection.  [send_campaign] reads three
    of its keys, which the record types; every other key of the document
    is an entry of [fields], and that is where [$set] writes. *)
Module CampaignDoc.
Record t := mk {
  name : string;
  template_id : string;
  contact_list_ids : list string;
  fields : gmap string Value
}.

(** [doc.get(key)] for a key other than the three typed ones. *)
Definition get (key : string) (doc : t) : option Value := fields doc !! key.

(** The effect of [{"$set": items}] on one document. *)
Definition set (items : list (string * Value)) (doc : t) : t :=
  mk (name doc) (template_id doc) (contact_list_ids doc)
     (foldl (fun fs item => <[item.1 := item.2]> fs) (fields doc) items).

(** [asdict(campaign)], the document that [create_campaign] inserts. *)
Definition asdict (c : Campaign.t) : t :=
  mk (Campaign.name c) (Campaign.template_id c) (Campaign.contact_list_ids c)
     (list_to_map
        [ ("created_at", VDatetime (Campaign.created_at c));
          ("sent_at", from_option VDatetime VNone (Campaign.sent_at c));
          ("status", VStr (Campaign.status c));
          ("total_recipients", VInt (Campaign.total_recipients c));
          ("sent_count", VInt (Campaign.sent_count c));
          ("failed_count", VInt (Campaign.failed_count c)) ]).
End CampaignDoc.

(** A document of the email_logs collection. *)
Module LogEntry.
Record t := mk {
  to_email : string;
  subject : string;
  status : string;
  timestamp : datetime;
  error_message : string
}.
End LogEntry.

Record SmtpConfig := {
  server : string;
  port : Z;
  username : string;
  password : string;
  use_tls : bool
}.

(** The configuration that [__init__] installs. *)
Definition smtp_unconfigured : SmtpConfig :=
  {| server := ""; port := 587; username := ""; password := ""; use_tls := true |}.

(** A write received by the storage: [email_logs.insert_one(entry)] or
    [campaigns.update_one({"name": name}, {"$set": items})]. *)
Inductive DbWrite :=
  | InsertLog (entry : LogEntry.t)
  | UpdateCampaign (name : string) (items : list (string * Value)).

(** The send statistics that [send_campaign] returns. *)
Record Stats := { sent : Z; failed : Z; total : Z }.

(** The exceptions of the model: [ValueError], [AttributeError], and
    [SessionError] for whatever the SMTP session raises. *)
Inductive exn :=
  | ValueError (msg : string)
  | AttributeError (msg : string)
  | SessionError (msg : string).

(** [str(e)]. *)
Definition exn_str (e : exn) : string :=
  match e with ValueError msg | AttributeError msg | SessionError msg => msg end.

Inductive Result (A : Type) :=
  | Return (a : A)
  | Raise (e : exn).
Arguments Return {A} a.
Arguments Raise {A} e.

(** ** What lies outside the program

    [smtp_session cfg to subject body html attachments] stands for the
    body of the [try] of [send_single_email] up to [server.quit()]:
    building the message, reading the attachments and the SMTP dialogue.
    It answers [None] when all of it succeeded and [Some msg] when an
    exception [e] with [str(e) = msg] was raised.  [datetime_now] is
    [datetime.now()]. *)
Class External := {
  World : Type;
  smtp_session :
    SmtpConfig -> string -> string -> string -> string -> option (list string) ->
    World -> option string * World;
  datetime_now : World -> datetime * World
}.

(** ** The parts of [send_campaign] that do not depend on the world *)

(** [campaigns_collection.find_one({"name": campaign_name})]. *)
Fixpoint find_campaign (campaign_name : string) (coll : list CampaignDoc.t)
    : option CampaignDoc.t :=
  match coll with
  | [] => None
  | doc :: rest =>
      if decide (CampaignDoc.name doc = campaign_name) then Some doc
      else find_campaign campaign_name rest
  end.

(** [campaigns_collection.update_one({"name": campaign_name}, {"$set": items})]. *)
Fixpoint update_campaign (campaign_name : string) (items : list (string * Value))
    (coll : list CampaignDoc.t) : list CampaignDoc.t :=
  match coll with
  | [] => []
  | doc :: rest =>
      if decide (CampaignDoc.name doc = campaign_name)
      then CampaignDoc.set items doc :: rest
      else doc :: update_campaign campaign_name items rest
  end.

(** The document after ["$set"] in the update that ends [send_campaign]. *)
Definition status_update (sent_at : datetime) (total_count sent_count failed_count : Z)
    : list (string * Value) :=
  [ ("status", VStr "sent");
    ("sent_at", VDatetime sent_at);
    ("total_recipient", VInt total_count);
    ("sent_count", VInt sent_count);
    ("failed_count", VInt failed_count) ].

(** The message of the [ValueError] that [send_single_email] raises when
    no server is configured. *)
Definition smtp_not_set : string :=
  "SMTP configuration not set. Use configure_smtp() first.".

(** The message of the [AttributeError] that the attribute lookup
    [pymongo.ObjectId] raises. *)
Definition no_ObjectId : string := "module 'pymongo' has no attribute 'ObjectId'".

(** One turn of the loop that removes duplicates. *)
Definition dedupe_step (acc : list Contact * gset string) (contact : Contact)
    : list Contact * gset string :=
  if decide (email contact ∈ acc.2) then acc
  else (acc.1 ++ [contact], acc.2 ∪ {[email contact]}).

Definition unique_contacts (all_contacts : list Contact) : list Contact :=
  (foldl dedupe_step ([], ∅) all_contacts).1.

(** ** The manager and its operations *)

Section Manager.
Context {ext : External}.

(** The state of an [EmailCampaignManager]: its SMTP configuration,
    the five collections, the writes the storage has received, and
    the world outside. *)
Record Manager := {
  smtp_config : SmtpConfig;
  contacts_collection : gmap string Contact;
  templates_collection : gmap string EmailTemplate.t;
  campaigns_collection : list CampaignDoc.t;
  contact_lists_collection : gmap string ContactList.t;
  email_logs_collection : list LogEntry.t;
  db_writes : list DbWrite;
  world : World
}.

(** A method of the manager: it ends in a value or in an exception,
    and the state it leaves is kept in both cases. *)
Definition M (A : Type) : Type := Manager -> Result A * Manager.

Definition ret {A} (a : A) : M A := fun m => (Return a, m).

Definition bind {A B} (c : M A) (k : A -> M B) : M B :=
  fun m =>
    match c m with
    | (Return a, m') => k a m'
    | (Raise e, m') => (Raise e, m')
    end.

Definition raise {A} (e : exn) : M A := fun m => (Raise e, m).

(** [try: c  except Exception as e: handler(e)]. *)
Definition try_except {A} (c : M A) (handler : exn -> M A) : M A :=
  fun m =>
    match c m with
    | (Return a, m') => (Return a, m')
    | (Raise e, m') => handler e m'
    end.

Definition gets {A} (f : Manager -> A) : M A := fun m => (Return (f m), m).

Notation "x <- c ;; k" := (bind c (fun x => k))
  (at level 100, c at next level, right associativity).
Notation "c ;;; k" := (bind c (fun _ => k))
  (at level 100, right associativity).

(** [for x in xs: acc = body(x, acc)]. *)
Fixpoint for_each {A S} (xs : list A) (body : A -> S -> M S) (acc : S) : M S :=
  match xs with
  | [] => ret acc
  | x :: xs' => acc' <- body x acc;; for_each xs' body acc'
  end.

Definition set_world (w : World) (m : Manager) : Manager :=
  {| smtp_config := smtp_config m;
     contacts_collection := contacts_collection m;
     templates_collection := templates_collection m;
     campaigns_collection := campaigns_collection m;
     contact_lists_collection := contact_lists_collection m;
     email_logs_collection := email_logs_collection m;
     db_writes := db_writes m;
     world := w |}.

(** The state after [email_logs_collection.insert_one(entry)]. *)
Definition add_log (entry : LogEntry.t) (m : Manager) : Manager :=
  {| smtp_config := smtp_config m;
     contacts_collection := contacts_collection m;
     templates_collection := templates_collection m;
     campaigns_collection := campaigns_collection m;
     contact_lists_collection := contact_lists_collection m;
     email_logs_collection := email_logs_collection m ++ [entry];
     db_writes := db_writes m ++ [InsertLog entry];
     world := world m |}.

(** The state after
    [campaigns_collection.update_one({"name": name}, {"$set": items})]. *)
Definition set_campaign (campaign_name : string) (items : list (string * Value))
    (m : Manager) : Manager :=
  {| smtp_config := smtp_config m;
     contacts_collection := contacts_collection m;
     templates_collection := templates_collection m;
     campaigns_collection :=
       update_campaign campaign_name items (campaigns_collection m);
     contact_lists_collection := contact_lists_collection m;
     email_logs_collection := email_logs_collection m;
     db_writes := db_writes m ++ [UpdateCampaign campaign_name items];
     world := world m |}.

(** [datetime.now()]. *)
Definition now : M datetime :=
  fun m => let (t, w) := datetime_now (world m) in (Return t, set_world w m).

Definition insert_log (entry : LogEntry.t) : M unit :=
  fun m => (Return tt, add_log entry m).

Definition update_one (campaign_name : string) (items : list (string * Value)) : M unit :=
  fun m => (Return tt, set_campaign campaign_name items m).

(** The [try] body of [send_single_email] up to [server.quit()]. *)
Definition run_smtp_session (to_email subject body html_body : string)
    (attachments : option (list string)) : M unit :=
  fun m =>
    let (outcome, w) :=
      smtp_session (smtp_config m) to_email subject body html_body attachments (world m) in
    match outcome with
    | None => (Return tt, set_world w m)
    | Some msg => (Raise (SessionError msg), set_world w m)
    end.

Definition log_email (to_email subject status error_message : string) : M unit :=
  t <- now;;
  insert_log (LogEntry.mk to_email subject status t error_message).

Definition send_single_email (to_email subject body html_body : string)
    (attachments : option (list string)) : M bool :=
  cfg <- gets smtp_config;;
  if decide (server cfg = "")
  then raise (ValueError smtp_not_set)
  else
    try_except
      (run_smtp_session to_email subject body html_body attachments;;;
       log_email to_email subject (EmailStatus_value SENT) "";;;
       ret true)
      (fun e =>
         log_email to_email subject (EmailStatus_value FAILED) (exn_str e);;;
         ret false).

(** The body of the loop [for contact in unique_contacts] of
    [send_campaign], on the pair [(sent_count, failed_count)]. *)
Definition send_to (template : EmailTemplate.t) (attachments : option (list string))
    (contact : Contact) (counts : Z * Z) : M (Z * Z) :=
  try_except
    (let personalized_subject :=
       personalize_email (EmailTemplate.subject template) contact in
     let personalized_body :=
       personalize_email (EmailTemplate.body template) contact in
     let personalized_html := personalize_html template contact in
     ok <- send_single_email (email contact) personalized_subject
             personalized_body personalized_html attachments;;
     if ok : bool then ret (counts.1 + 1, counts.2)
     else ret (counts.1, counts.2 + 1))
    (fun e => ret (counts.1, counts.2 + 1)).

(** [pymongo.ObjectId(oid)].  The source imports [pymongo] and
    [MongoClient] (lines 66-67); the module [pymongo] has no attribute
    [ObjectId], so the attribute lookup raises [AttributeError] before
    the argument is looked at. *)
Definition ObjectId (oid : string) : M string :=
  raise (AttributeError no_ObjectId).

(** The body of the loop [for contact_id in list_doc['contact_ids']] of
    [send_campaign] and of [get_contact_list_contacts], on the list of
    the contacts found so far. *)
Definition append_contact (contact_id : string) (found : list Contact)
    : M (list Contact) :=
  key <- ObjectId contact_id;;
  contacts <- gets contacts_collection;;
  match contacts !! key with
  | Some contact => ret (found ++ [contact])
  | None => ret found
  end.

(** The loop [for list_id in campaign_doc['contact_list_ids']] of
    [send_campaign]. *)
Definition gather_contacts (contact_list_ids : list string) : M (list Contact) :=
  for_each contact_list_ids
    (fun list_id all_contacts =>
       key <- ObjectId list_id;;
       lists <- gets contact_lists_collection;;
       match lists !! key with
       | Some list_doc =>
           for_each (ContactList.contact_ids list_doc) append_contact all_contacts
       | None => ret all_contacts
       end)
    [].

Definition send_campaign (campaign_name : string)
    (attachments : option (list string)) : M Stats :=
  campaigns <- gets campaigns_collection;;
  match find_campaign campaign_name campaigns with
  | None => raise (ValueError ("Campaign not found: " +:+ campaign_name))
  | Some campaign_doc =>
      template_key <- ObjectId (CampaignDoc.template_id campaign_doc);;
      templates <- gets templates_collection;;
      match templates !! template_key with
      | None =>
          raise (ValueError ("Template not found for campaign: " +:+ campaign_name))
      | Some template =>
          all_contacts <- gather_contacts (CampaignDoc.contact_list_ids campaign_doc);;
          let unique := unique_contacts all_contacts in
          let total_count := Z.of_nat (length unique) in
          counts <- for_each unique (send_to template attachments) (0, 0);;
          t <- now;;
          update_one campaign_name
            (status_update t total_count counts.1 counts.2);;;
          ret {| sent := counts.1; failed := counts.2; total := total_count |}
      end
  end.

End Manager.

Arguments Manager : clear implicits.
Arguments M : clear implicits.

(** ** Templates as the specification reads them

    The specification speaks of a template as text in which placeholders
    occur: [{{name}}] with exact double braces and no nested braces.
    The definitions of this part follow its words, to be compared with
    [personalize_email]. *)

(** A piece of a template: literal text, or the placeholder [{{name}}]. *)
Inductive chunk :=
  | Lit (text : string)
  | Hole (name : string).

Definition token (name : string) : string := "{{" +:+ name +:+ "}}".

Definition chunk_text (ch : chunk) : string :=
  match ch with
  | Lit text => text
  | Hole name => token name
  end.

(** The template string that a sequence of chunks stands for. *)
Definition template_text (chunks : list chunk) : string :=
  foldr (fun ch rest => chunk_text ch +:+ rest) "" chunks.

(** [avoids c s]: the character [c] does not occur in [s]. *)
Fixpoint avoids (c : ascii) (s : string) : bool :=
  match s with
  | EmptyString => true
  | String a s' => negb (Ascii.eqb a c) && avoids c s'
  end.

(** No brace in [s]. *)
Definition brace_free (s : string) : bool := avoids "{" s && avoids "}" s.

(** Literal text without braces, placeholder names without braces. *)
Definition well_formed (chunks : list chunk) : bool :=
  forallb (fun ch => match ch with Lit s | Hole s => brace_free s end) chunks.

(** No brace in any value of the contact, nor in the names of its custom
    fields. *)
Definition plain_contact (contact : Contact) : bool :=
  brace_free (first_name contact) && brace_free (last_name contact)
  && brace_free (email contact) && brace_free (company contact)
  && forallb (fun field => brace_free field.1 && brace_free field.2)
       (custom_fields contact).

(** [strip_prefix p s] is [Some r] when [s = p +:+ r]. *)
Fixpoint strip_prefix (p s : string) : option string :=
  match p, s with
  | EmptyString, _ => Some s
  | String a p', String b s' => if Ascii.eqb a b then strip_prefix p' s' else None
  | String _ _, EmptyString => None
  end.

(** The value the specification gives to a placeholder name, [None] for
    a name that is not recognized: the five fixed names, and [custom.f]
    for each key [f] of the custom fields. *)
Definition spec_value (contact : Contact) (name : string) : option string :=
  if decide (name = "first_name") then Some (first_name contact)
  else if decide (name = "last_name") then Some (last_name contact)
  else if decide (name = "full_name")
       then Some (PyStr.strip (first_name contact +:+ " " +:+ last_name contact))
  else if decide (name = "email") then Some (email contact)
  else if decide (name = "company") then Some (company contact)
  else
    field ← strip_prefix "custom." name;
    (list_to_map (custom_fields contact) : gmap string string) !! field.

(** The personalized text the specification asks for: every recognized
    placeholder replaced by its value, everything else verbatim. *)
Definition spec_render (contact : Contact) (chunks : list chunk) : string :=
  template_text
    (map (fun ch =>
            match ch with
            | Lit text => ch
            | Hole name => from_option Lit ch (spec_value contact name)
            end) chunks).

(** [fill name value ch]: the chunk [ch] once the placeholder [name] has
    been replaced by the text [value]. *)
Definition fill (name value : string) (ch : chunk) : chunk :=
  match ch with
  | Lit _ => ch
  | Hole m => if decide (m = name) then Lit value else ch
  end.

Definition fill_all (values : list (string * string)) (ch : chunk) : chunk :=
  foldl (fun ch item => fill item.1 item.2 ch) ch values.

(** The placeholder names that [personalize_email] replaces for a
    contact, each with its value, in the order of the two loops. *)
Definition named_values (contact : Contact) : list (string * string) :=
  [ ("first_name", first_name contact);
    ("last_name", last_name contact);
    ("email", email contact);
    ("company", company contact);
    ("full_name", PyStr.strip (first_name contact +:+ " " +:+ last_name contact)) ]
  ++ map (fun field => ("custom." +:+ field.1, field.2)) (custom_fields contact).

(** A placeholder name and a value without braces. *)
Definition plain_item (item : string * string) : Prop :=
  brace_free item.1 = true /\ brace_free item.2 = true.

(** The item of [personalize_email] for a placeholder name and its value. *)
Definition tokenize (item : string * string) : string * string :=
  (token item.1, item.2).

(** The items that [personalize_email] goes through, custom fields
    included, in the order of its two loops. *)
Definition substitutions (contact : Contact) : list (string * string) :=
  placeholders contact
  ++ map (fun field => (custom_placeholder field.1, field.2)) (custom_fields contact).

(** ** Address validation

    [validate_email] matches the address against a regular expression
    with [re.match].  The expression is kept as data and matched by
    derivatives. *)

Module Regex.

Inductive t :=
  | Void
  | Eps
  | Chars (p : ascii -> bool)
  | Seq (r1 r2 : t)
  | Alt (r1 r2 : t)
  | Star (r : t).

(** [r+]. *)
Definition plus (r : t) : t := Seq r (Star r).

Fixpoint nullable (r : t) : bool :=
  match r with
  | Void => false
  | Eps => true
  | Chars _ => false
  | Seq r1 r2 => nullable r1 && nullable r2
  | Alt r1 r2 => nullable r1 || nullable r2
  | Star _ => true
  end.

(** The expression for what may follow the character [c]. *)
Fixpoint deriv (c : ascii) (r : t) : t :=
  match r with
  | Void => Void
  | Eps => Void
  | Chars p => if p c then Eps else Void
  | Seq r1 r2 =>
      if nullable r1 then Alt (Seq (deriv c r1) r2) (deriv c r2)
      else Seq (deriv c r1) r2
  | Alt r1 r2 => Alt (deriv c r1) (deriv c r2)
  | Star r => Seq (deriv c r) (Star r)
  end.

(** Whether the whole of [s] matches [r]. *)
Fixpoint fullmatch (r : t) (s : string) : bool :=
  match s with
  | EmptyString => nullable r
  | String c s' => fullmatch (deriv c r) s'
  end.

(** The strings of an expression. *)
Inductive lang : t -> string -> Prop :=
  | lang_eps : lang Eps ""
  | lang_chars p c : p c = true -> lang (Chars p) (String c "")
  | lang_seq r1 r2 s1 s2 : lang r1 s1 -> lang r2 s2 -> lang (Seq r1 r2) (s1 +:+ s2)
  | lang_alt_l r1 r2 s : lang r1 s -> lang (Alt r1 r2) s
  | lang_alt_r r1 r2 s : lang r2 s -> lang (Alt r1 r2) s
  | lang_star_nil r : lang (Star r) ""
  | lang_star_cons r s1 s2 : lang r s1 -> lang (Star r) s2 -> lang (Star r) (s1 +:+ s2).

End Regex.

Definition in_range (lo hi c : ascii) : bool :=
  (nat_of_ascii lo <=? nat_of_ascii c)%nat && (nat_of_ascii c <=? nat_of_ascii hi)%nat.

(** [[a-zA-Z]]. *)
Definition is_letter (c : ascii) : bool := in_range "a" "z" c || in_range "A" "Z" c.

(** [[a-zA-Z0-9-]]. *)
Definition is_label_char (c : ascii) : bool :=
  is_letter c || in_range "0" "9" c || Ascii.eqb c "-".

(** [[a-zA-Z0-9._%+-]]. *)
Definition is_local_char (c : ascii) : bool :=
  is_letter c || in_range "0" "9" c || Ascii.eqb c "." || Ascii.eqb c "_"
  || Ascii.eqb c "%" || Ascii.eqb c "+" || Ascii.eqb c "-".

Definition newline : ascii := "010".

(** [[a-zA-Z0-9._%+-]+@([a-zA-Z0-9-]+\.)+[a-zA-Z]{2,}], the pattern of
    [validate_email] between its [^] and its [$]. *)
Definition email_pattern : Regex.t :=
  Regex.Seq (Regex.plus (Regex.Chars is_local_char))
    (Regex.Seq (Regex.Chars (Ascii.eqb "@"))
       (Regex.Seq
          (Regex.plus
             (Regex.Seq (Regex.plus (Regex.Chars is_label_char))
                (Regex.Chars (Ascii.eqb "."))))
          (Regex.Seq (Regex.Chars is_letter) (Regex.plus (Regex.Chars is_letter))))).

(** [$] at the end of a pattern: the end of the string, or a newline that
    ends the string. *)
Definition dollar : Regex.t := Regex.Alt Regex.Eps (Regex.Chars (Ascii.eqb newline)).

(** [re.match(pattern, email) is not None]. *)
Definition validate_email (email : string) : bool :=
  Regex.fullmatch (Regex.Seq email_pattern dollar) email.

(** The number of occurrences of a character. *)
Fixpoint count_char (c : ascii) (s : string) : nat :=
  match s with
  | EmptyString => 0
  | String a s' => (if Ascii.eqb a c then 1 else 0) + count_char c s'
  end.

(** Whether every character of [s] satisfies [q]. *)
Fixpoint all_chars (q : ascii -> bool) (s : string) : bool :=
  match s with
  | EmptyString => true
  | String a s' => q a && all_chars q s'
  end.

(** Every character that a class of [r] accepts satisfies [q]. *)
Fixpoint classes_within (q : ascii -> bool) (r : Regex.t) : Prop :=
  match r with
  | Regex.Void | Regex.Eps => True
  | Regex.Chars p => forall c, p c = true -> q c = true
  | Regex.Seq r1 r2 | Regex.Alt r1 r2 => classes_within q r1 /\ classes_within q r2
  | Regex.Star r => classes_within q r
  end.

(** A character of an address: one of the local part, an at sign, or the
    newline that [$] lets through. *)
Definition address_char (c : ascii) : bool :=
  is_local_char c || Ascii.eqb c "@" || Ascii.eqb c newline.

(** ** Lookups by a field

    [collection.find_one({field: value})] on a collection that the model
    keys by [_id].  Each collection has a unique index on the field it
    is searched by, so at most one document matches and the order in
    which the documents are examined does not show. *)
Definition find_one {A} (P : A -> Prop) `{!forall x, Decision (P x)}
    (coll : gmap string A) : option (string * A) :=
  head (filter (fun kv => P kv.2) (map_to_list coll)).

(** The unique index: two documents with the same value of the field are
    the same document. *)
Definition unique_by {A B} (f : A -> B) (coll : gmap string A) : Prop :=
  forall i j x y, coll !! i = Some x -> coll !! j = Some y -> f x = f y -> i = j.

(** [{"$addToSet": {field: {"$each": values}}}] on the array [arr]. *)
Definition add_to_set (values arr : list string) : list string :=
  foldl (fun arr v => if decide (v ∈ arr) then arr else arr ++ [v]) arr values.



(** ** The other operations of the manager

    An operation that inserts a document takes the [_id] that the driver
    generates for it as its argument [new_id]. *)

Section Crud.
Context {ext : External}.

Notation "x <- c ;; k" := (bind c (fun x => k))
  (at level 100, c at next level, right associativity).
Notation "c ;;; k" := (bind c (fun _ => k))
  (at level 100, right associativity).

Definition set_smtp_config (cfg : SmtpConfig) (m : Manager ext) : Manager ext :=
  {| smtp_config := cfg;
     contacts_collection := contacts_collection m;
     templates_collection := templates_collection m;
     campaigns_collection := campaigns_collection m;
     contact_lists_collection := contact_lists_collection m;
     email_logs_collection := email_logs_collection m;
     db_writes := db_writes m;
     world := world m |}.

Definition set_contacts (contacts : gmap string Contact) (m : Manager ext) : Manager ext :=
  {| smtp_config := smtp_config m;
     contacts_collection := contacts;
     templates_collection := templates_collection m;
     campaigns_collection := campaigns_collection m;
     contact_lists_collection := contact_lists_collection m;
     email_logs_collection := email_logs_collection m;
     db_writes := db_writes m;
     world := world m |}.

Definition set_templates (templates : gmap string EmailTemplate.t) (m : Manager ext)
    : Manager ext :=
  {| smtp_config := smtp_config m;
     contacts_collection := contacts_collection m;
     templates_collection := templates;
     campaigns_collection := campaigns_collection m;
     contact_lists_collection := contact_lists_collection m;
     email_logs_collection := email_logs_collection m;
     db_writes := db_writes m;
     world := world m |}.

Definition set_campaigns (campaigns : list CampaignDoc.t) (m : Manager ext) : Manager ext :=
  {| smtp_config := smtp_config m;
     contacts_collection := contacts_collection m;
     templates_collection := templates_collection m;
     campaigns_collection := campaigns;
     contact_lists_collection := contact_lists_collection m;
     email_logs_collection := email_logs_collection m;
     db_writes := db_writes m;
     world := world m |}.

Definition set_contact_lists (lists : gmap string ContactList.t) (m : Manager ext)
    : Manager ext :=
  {| smtp_config := smtp_config m;
     contacts_collection := contacts_collection m;
     templates_collection := templates_collection m;
     campaigns_collection := campaigns_collection m;
     contact_lists_collection := lists;
     email_logs_collection := email_logs_collection m;
     db_writes := db_writes m;
     world := world m |}.

Definition modify (f : Manager ext -> Manager ext) : M ext unit :=
  fun m => (Return tt, f m).

Definition configure_smtp (server : string) (port : Z) (username password : string)
    (use_tls : bool) : M ext unit :=
  modify (set_smtp_config
            {| server := server; port := port; username := username;
               password := password; use_tls := use_tls |}).

(** *** Contacts *)

(** [insert_one] raises [DuplicateKeyError] when the [_id] is taken or
    when the unique index on the address is violated. *)
Definition add_contact (new_id : string) (contact : Contact) : M ext string :=
  if validate_email (email contact)
  then
    _ <- now;;
    contacts <- gets contacts_collection;;
    match contacts !! new_id, find_one (fun c => email c = email contact) contacts with
    | None, None =>
        modify (set_contacts (<[new_id := contact]> contacts));;;
        ret new_id
    | _, _ =>
        raise (ValueError
                 ("Contact with email " +:+ email contact +:+ " already exists"))
    end
  else raise (ValueError ("Invalid email address: " +:+ email contact)).

Definition get_contact (address : string) : M ext (option Contact) :=
  contacts <- gets contacts_collection;;
  ret (snd <$> find_one (fun c => email c = address) contacts).

Definition delete_contact (address : string) : M ext bool :=
  contacts <- gets contacts_collection;;
  match find_one (fun c => email c = address) contacts with
  | Some (contact_id, _) =>
      modify (set_contacts (delete contact_id contacts));;;
      ret true
  | None => ret false
  end.

(** *** Contact lists *)

Definition create_contact_list (new_id name description : string) : M ext string :=
  _ <- now;;
  lists <- gets contact_lists_collection;;
  match lists !! new_id, find_one (fun l => ContactList.name l = name) lists with
  | None, None =>
      modify (set_contact_lists (<[new_id := ContactList.mk name description []]> lists));;;
      ret new_id
  | _, _ =>
      raise (ValueError ("Contact list with name '" +:+ name +:+ "' already exists"))
  end.

(** The ids of the contacts found for the addresses, in their order. *)
Definition resolve_emails (contacts : gmap string Contact) (emails : list string)
    : list string :=
  omap (fun address => fst <$> find_one (fun c => email c = address) contacts) emails.

Definition add_contacts_to_list (list_name : string) (emails : list string) : M ext Z :=
  contacts <- gets contacts_collection;;
  let contact_ids := resolve_emails contacts emails in
  lists <- gets contact_lists_collection;;
  match find_one (fun l => ContactList.name l = list_name) lists with
  | Some (list_id, list_doc) =>
      let updated := add_to_set contact_ids (ContactList.contact_ids list_doc) in
      if decide (updated = ContactList.contact_ids list_doc) then ret 0
      else
        modify (set_contact_lists
                  (<[list_id := ContactList.mk (ContactList.name list_doc)
                                  (ContactList.description list_doc) updated]> lists));;;
        ret (Z.of_nat (length contact_ids))
  | None => ret 0
  end.

Definition get_contact_list_contacts (list_name : string) : M ext (list Contact) :=
  lists <- gets contact_lists_collection;;
  match find_one (fun l => ContactList.name l = list_name) lists with
  | None => ret []
  | Some (_, list_doc) =>
      for_each (ContactList.contact_ids list_doc) append_contact []
  end.

(** *** Templates *)



Definition delete_template (name : string) : M ext bool :=
  templates <- gets templates_collection;;
  match find_one (fun t => EmailTemplate.name t = name) templates with
  | Some (template_id, _) =>
      modify (set_templates (delete template_id templates));;;
      ret true
  | None => ret false
  end.

(** *** Campaigns *)

(** The campaigns collection is kept in insertion order; its unique
    index is on the name. *)
Definition create_campaign (new_id : string) (campaign : Campaign.t) : M ext string :=
  campaigns <- gets campaigns_collection;;
  match find_campaign (Campaign.name campaign) campaigns with
  | None =>
      modify (set_campaigns (campaigns ++ [CampaignDoc.asdict campaign]));;;
      ret new_id
  | Some _ =>
      raise (ValueError ("Campaign with name '" +:+ Campaign.name campaign
                         +:+ "' already exists"))
  end.


Definition list_campaigns : M ext (list string) :=
  campaigns <- gets campaigns_collection;;
  ret (CampaignDoc.name <$> campaigns).

End Crud.

(** ** A concrete world and store, for the examples *)

Module Scenario.

(** A clock that advances at every reading and at every SMTP session,
    and a server that refuses the recipient b@x.com. *)
Definition external : External :=
  {| World := nat;
     smtp_session := fun _ to_email _ _ _ _ w =>
       (if decide (to_email = "b@x.com") then Some "550 mailbox unavailable" else None,
        S w);
     datetime_now := fun w => (w, S w) |}.

Definition gmail : SmtpConfig :=
  {| server := "smtp.gmail.com"; port := 587; username := "sender@x.com";
     password := "secret"; use_tls := true |}.

Definition contact_a : Contact :=
  {| email := "a@x.com"; first_name := "Ana"; last_name := "Lima";
     company := "Acme"; custom_fields := [("city", "Porto")] |}.

Definition contact_b : Contact :=
  {| email := "b@x.com"; first_name := "Bo"; last_name := "";
     company := ""; custom_fields := [] |}.

Definition template : EmailTemplate.t :=
  EmailTemplate.mk "Welcome Email" "Hi {{first_name}}!"
    "Hello {{full_name}} of {{company}}, {{custom.city}}" "" 0%nat.

Definition welcome : string := "Welcome Campaign 2024".

Definition campaign : Campaign.t :=
  Campaign.new welcome "t1" ["listA"; "listB"] 1%nat.

(** List A holds a@x.com; list B holds a@x.com and b@x.com. *)
Definition manager (cfg : SmtpConfig) : Manager external :=
  {| smtp_config := cfg;
     contacts_collection := {[ "c1" := contact_a; "c2" := contact_b ]};
     templates_collection := {[ "t1" := template ]};
     campaigns_collection := [CampaignDoc.asdict campaign];
     contact_lists_collection :=
       {[ "listA" := ContactList.mk "A" "" ["c1"];
          "listB" := ContactList.mk "B" "" ["c1"; "c2"] ]};
     email_logs_collection := [];
     db_writes := [];
     world := (10%nat : @World external) |}.

(** The same store with a campaign over an empty list only. *)
Definition empty_manager (cfg : SmtpConfig) : Manager external :=
  {| smtp_config := cfg;
     contacts_collection := ∅;
     templates_collection := {[ "t1" := template ]};
     campaigns_collection := [CampaignDoc.asdict campaign];
     contact_lists_collection := {[ "listA" := ContactList.mk "A" "" ["gone"] ]};
     email_logs_collection := [];
     db_writes := [];
     world := (10%nat : @World external) |}.

(** A contact whose first name reads like a placeholder. *)
Definition contact_braces : Contact :=
  {| email := "d@x.com"; first_name := "{{last_name}}"; last_name := "Doe";
     company := ""; custom_fields := [] |}.

(** The template "Hi {{first_name}}" as the specification reads it. *)
Definition greeting : list chunk := [Lit "Hi "; Hole "first_name"].

End Scenario.

Definition ana : Contact :=
  {| email := "ana@x.com"; first_name := "Ana"; last_name := "";
     company := ""; custom_fields := [] |}.

(** More documents for the store of the scenario. *)
Module Fixtures.

(** A contact that the store of the scenario does not hold. *)
Definition contact_c : Contact :=
  {| email := "c@x.com"; first_name := "Cy"; last_name := "Roy";
     company := ""; custom_fields := [] |}.

(** A campaign under a name that the store does not hold. *)
Definition spring : Campaign.t :=
  Campaign.new "Spring Sale" "t1" ["listA"] 2%nat.


(** The store of the scenario once the template of its campaign is gone. *)
Definition orphan_manager : Manager Scenario.external :=
  set_templates ∅ (Scenario.manager Scenario.gmail).

(** List A of the scenario. *)
Definition list_a : ContactList.t := ContactList.mk "A" "" ["c1"].

(** A template with a placeholder that is not recognized. *)
Definition salutation : list chunk :=
  [Lit "Hi "; Hole "first_name"; Lit ", "; Hole "nickname"].

End Fixtures.

Example personalize_ana : personalize_email "Hi {{first_name}}!" ana = "Hi Ana!".
Proof. reflexivity. Qed.

Example replace_nonoverlap : PyStr.replace "aa" "b" "aaaaa" = "bba".
Proof. reflexivity. Qed.

Example replace_empty : PyStr.replace "" "-" "abc" = "-a-b-c-".
Proof. reflexivity. Qed.

Example replace_no_rescan : PyStr.replace "a" "aa" "aba" = "aabaa".
Proof. reflexivity. Qed.

Example replace_delete : PyStr.replace "bc" "" "abcabc" = "aa".
Proof. reflexivity. Qed.

Example replace_all_occurrences :
  PyStr.replace "{{email}}" "a@x.com" "{{email}}, {{email}} {{e}}" = "a@x.com, a@x.com {{e}}".
Proof. reflexivity. Qed.

Example strip_ex : PyStr.strip "  a b  " = "a b".
Proof. reflexivity. Qed.

Example personalize_body :
  personalize_email (EmailTemplate.body Scenario.template) Scenario.contact_a
  = "Hello Ana Lima of Acme, Porto".
Proof. reflexivity. Qed.

Example personalize_missing_custom_field :
  personalize_email (EmailTemplate.body Scenario.template) Scenario.contact_b
  = "Hello Bo of , {{custom.city}}".
Proof. reflexivity. Qed.

(** ** Sending one message, and the lookups by [_id] *)

Section Sending.
Context {ext : External}.
Implicit Types (m : Manager ext) (template : EmailTemplate.t)
  (contact : Contact) (counts : Z * Z) (attachments : option (list string)).

Lemma send_single_email_unconfigured to_email subject body html_body attachments m :
  server (smtp_config m) = "" ->
  send_single_email to_email subject body html_body attachments m
  = (Raise (ValueError smtp_not_set), m).
Proof.
  intros Hcfg. unfold send_single_email, bind, gets, raise.
  destruct (decide (server (smtp_config m) = "")); [reflexivity | contradiction].
Qed.

(** With a server configured, [send_single_email] returns: its own
    [except] turns a failed session into a logged failure. *)
Lemma send_single_email_configured to_email subject body html_body attachments m
    outcome w1 t w2 :
  server (smtp_config m) <> "" ->
  smtp_session (smtp_config m) to_email subject body html_body attachments (world m)
    = (outcome, w1) ->
  datetime_now w1 = (t, w2) ->
  send_single_email to_email subject body html_body attachments m
  = match outcome with
    | None =>
        (Return true,
         add_log (LogEntry.mk to_email subject (EmailStatus_value SENT) t "")
           (set_world w2 m))
    | Some msg =>
        (Return false,
         add_log (LogEntry.mk to_email subject (EmailStatus_value FAILED) t msg)
           (set_world w2 m))
    end.
Proof.
  intros Hcfg Hsession Hnow.
  unfold send_single_email, bind, gets, try_except, run_smtp_session, log_email,
    now, insert_log, ret, bind.
  destruct (decide (server (smtp_config m) = "")); [contradiction |].
  rewrite Hsession. destruct outcome as [msg |]; simpl; rewrite Hnow; reflexivity.
Qed.

(** A campaign that does not exist: the first [ValueError]. *)
Lemma send_campaign_no_campaign campaign_name attachments m :
  find_campaign campaign_name (campaigns_collection m) = None ->
  send_campaign campaign_name attachments m
  = (Raise (ValueError ("Campaign not found: " +:+ campaign_name)), m).
Proof. intros Hdoc. unfold send_campaign, bind, gets, raise. rewrite Hdoc. reflexivity. Qed.

(** A campaign that exists: the lookup of its template is not reached. *)
Lemma send_campaign_existing campaign_name attachments m campaign_doc :
  find_campaign campaign_name (campaigns_collection m) = Some campaign_doc ->
  send_campaign campaign_name attachments m = (Raise (AttributeError no_ObjectId), m).
Proof. intros Hdoc. unfold send_campaign, bind, gets. rewrite Hdoc. reflexivity. Qed.

End Sending.

(** ** Personalization *)

Section Replace.

Lemma app_cons (c : ascii) (s t : string) : String c s +:+ t = String c (s +:+ t).
Proof. reflexivity. Qed.

Lemma app_empty_l (t : string) : "" +:+ t = t.
Proof. reflexivity. Qed.

Lemma app_empty_r (s : string) : s +:+ "" = s.
Proof. induction s as [| c s IH]; [reflexivity |]. rewrite app_cons, IH. reflexivity. Qed.

Lemma app_assoc_str (s t u : string) : (s +:+ t) +:+ u = s +:+ t +:+ u.
Proof.
  induction s as [| c s IH]; [reflexivity |]. rewrite !app_cons, IH. reflexivity.
Qed.

Lemma prefix_cons (a b : ascii) (p s : string) :
  String.prefix (String a p) (String b s) = Ascii.eqb a b && String.prefix p s.
Proof.
  simpl. destruct (ascii_dec a b) as [-> | Hne].
  - rewrite Ascii.eqb_refl. reflexivity.
  - apply Ascii.eqb_neq in Hne. rewrite Hne. reflexivity.
Qed.

Lemma prefix_app (p r : string) : String.prefix p (p +:+ r) = true.
Proof.
  induction p as [| a p IH]; [destruct r; reflexivity |].
  rewrite app_cons, prefix_cons, Ascii.eqb_refl. exact IH.
Qed.

Implicit Types old new : string.

(** The characters of a replaced occurrence are passed over. *)
Lemma replace_from_skip old new (a r : string) :
  PyStr.replace_from old new (String.length a) (a +:+ r)
  = PyStr.replace_from old new 0 r.
Proof.
  induction a as [| c a IH]; [reflexivity |].
  rewrite app_cons. simpl. exact IH.
Qed.

(** An occurrence at the head is replaced. *)
Lemma replace_from_match old new (r : string) :
  old <> "" ->
  PyStr.replace_from old new 0 (old +:+ r)
  = new +:+ PyStr.replace_from old new 0 r.
Proof.
  intros Hold. pose proof (prefix_app old r) as Hprefix.
  destruct old as [| c old']; [contradiction |].
  rewrite app_cons in *. cbn [PyStr.replace_from]. rewrite Hprefix.
  cbn [String.length pred]. rewrite replace_from_skip. reflexivity.
Qed.

(** A character that does not start an occurrence is copied. *)
Lemma replace_from_copy old new (c : ascii) (s : string) :
  String.prefix old (String c s) = false ->
  PyStr.replace_from old new 0 (String c s)
  = String c (PyStr.replace_from old new 0 s).
Proof. intros Hprefix. cbn [PyStr.replace_from]. rewrite Hprefix. reflexivity. Qed.

(** Text without the first character of [old] is copied. *)
Lemma replace_from_pass (c0 : ascii) old new (s r : string) :
  avoids c0 s = true ->
  PyStr.replace_from (String c0 old) new 0 (s +:+ r)
  = s +:+ PyStr.replace_from (String c0 old) new 0 r.
Proof.
  induction s as [| c s IH]; intros Hs; [reflexivity |].
  simpl in Hs. apply andb_prop in Hs as [Hc Hs].
  rewrite !app_cons, replace_from_copy.
  - rewrite IH by exact Hs. reflexivity.
  - rewrite prefix_cons, Ascii.eqb_sym.
    apply negb_true_iff in Hc. rewrite Hc. reflexivity.
Qed.

(** Two placeholders with brace-free names match only if the names are
    the same. *)
Lemma closing_prefix_inv (n m r : string) :
  avoids "}" n = true -> avoids "}" m = true ->
  String.prefix (n +:+ "}}") (m +:+ "}}" +:+ r) = true -> n = m.
Proof.
  revert m. induction n as [| a n IH]; intros [| b m] Hn Hm Hprefix.
  - reflexivity.
  - exfalso. simpl in Hm. apply andb_prop in Hm as [Hb _].
    rewrite app_empty_l, app_cons in Hprefix.
    change ("}}" : string) with (String "}" "}") in Hprefix.
    rewrite prefix_cons in Hprefix. apply andb_prop in Hprefix as [Heq _].
    rewrite Ascii.eqb_sym, (proj1 (negb_true_iff _) Hb) in Heq. discriminate.
  - exfalso. simpl in Hn. apply andb_prop in Hn as [Ha _].
    rewrite app_empty_l, app_cons in Hprefix.
    change ("}}" +:+ r) with (String "}" ("}" +:+ r)) in Hprefix.
    rewrite prefix_cons in Hprefix. apply andb_prop in Hprefix as [Heq _].
    rewrite (proj1 (negb_true_iff _) Ha) in Heq. discriminate.
  - simpl in Hn, Hm. apply andb_prop in Hn as [_ Hn]. apply andb_prop in Hm as [_ Hm].
    rewrite !app_cons, prefix_cons in Hprefix.
    apply andb_prop in Hprefix as [Heq Hprefix].
    apply Ascii.eqb_eq in Heq. subst b. f_equal. eapply IH; eassumption.
Qed.

Lemma token_app (n r : string) :
  token n +:+ r = String "{" (String "{" (n +:+ "}}" +:+ r)).
Proof. unfold token. rewrite !app_assoc_str. reflexivity. Qed.

Lemma token_cons (n : string) : token n = String "{" (String "{" (n +:+ "}}")).
Proof. reflexivity. Qed.

(** Another placeholder is copied as it stands. *)
Lemma replace_from_other_hole (n m new r : string) :
  brace_free n = true -> brace_free m = true -> m <> n ->
  PyStr.replace_from (token n) new 0 (token m +:+ r)
  = token m +:+ PyStr.replace_from (token n) new 0 r.
Proof.
  unfold brace_free. intros [_ Hn]%andb_prop [Hm Hm']%andb_prop Hne.
  rewrite (token_app m r), (token_cons n).
  rewrite replace_from_copy.
  2:{ rewrite !prefix_cons. simpl.
      destruct (String.prefix (n +:+ "}}") (m +:+ "}}" +:+ r)) eqn:Hprefix;
        [| reflexivity].
      exfalso. apply Hne. symmetry. eapply closing_prefix_inv; eassumption. }
  rewrite replace_from_copy.
  2:{ rewrite prefix_cons. simpl. destruct m as [| b m].
      - reflexivity.
      - rewrite app_cons, prefix_cons. simpl in Hm.
        apply andb_prop in Hm as [Hb _]. apply negb_true_iff in Hb.
        rewrite Ascii.eqb_sym, Hb. reflexivity. }
  rewrite <- app_assoc_str, replace_from_pass.
  - rewrite app_assoc_str, token_app. reflexivity.
  - clear -Hm. induction m as [| b m IH]; [reflexivity |].
    simpl in *. apply andb_prop in Hm as [-> Hm]. simpl. auto.
Qed.

End Replace.

Section Chunks.

Lemma replace_token (name value s : string) :
  PyStr.replace (token name) value s = PyStr.replace_from (token name) value 0 s.
Proof. reflexivity. Qed.

(** On a well-formed template, one [replace] fills the placeholders of
    that name and touches nothing else. *)
Lemma replace_template (name value : string) (chunks : list chunk) :
  brace_free name = true -> well_formed chunks = true ->
  PyStr.replace (token name) value (template_text chunks)
  = template_text (fill name value <$> chunks).
Proof.
  intros Hname. rewrite replace_token.
  induction chunks as [| [text | m] chunks IH]; intros Hwf; [reflexivity | |];
    simpl in Hwf; apply andb_prop in Hwf as [Hch Hwf];
    rewrite fmap_cons; cbn [template_text foldr chunk_text fill];
    fold (template_text chunks); fold (template_text (fill name value <$> chunks)).
  - apply andb_prop in Hch as [Hopen _].
    rewrite (token_cons name), replace_from_pass by exact Hopen.
    rewrite <- (token_cons name), IH by exact Hwf. reflexivity.
  - destruct (decide (m = name)) as [-> | Hne]; cbn [chunk_text].
    + rewrite replace_from_match by discriminate. rewrite IH by exact Hwf.
      reflexivity.
    + rewrite replace_from_other_hole by assumption. rewrite IH by exact Hwf.
      reflexivity.
Qed.

Lemma well_formed_fill (name value : string) (chunks : list chunk) :
  brace_free value = true -> well_formed chunks = true ->
  well_formed (fill name value <$> chunks) = true.
Proof.
  intros Hvalue. induction chunks as [| [text | m] chunks IH]; intros Hwf;
    [reflexivity | |]; simpl in Hwf; apply andb_prop in Hwf as [Hch Hwf];
    rewrite fmap_cons; simpl.
  - rewrite Hch. apply IH, Hwf.
  - destruct (decide (m = name)); [rewrite Hvalue | rewrite Hch]; apply IH, Hwf.
Qed.

(** The passes of [replace_each] over a well-formed template. *)
Lemma replace_each_fill (values : list (string * string)) (chunks : list chunk) :
  Forall plain_item values -> well_formed chunks = true ->
  replace_each (tokenize <$> values) (template_text chunks)
  = template_text (fill_all values <$> chunks).
Proof.
  intros Hvalues. revert chunks.
  induction Hvalues as [| [name value] values [Hname Hvalue] _ IH]; intros chunks Hwf.
  - unfold fill_all. simpl. rewrite list_fmap_id. reflexivity.
  - rewrite fmap_cons. unfold replace_each. cbn [foldl tokenize fst snd].
    rewrite replace_template by assumption.
    fold (replace_each (tokenize <$> values) (template_text (fill name value <$> chunks))).
    rewrite IH by (apply well_formed_fill; assumption).
    rewrite <- list_fmap_compose. reflexivity.
Qed.

Lemma fill_all_lit (values : list (string * string)) (text : string) :
  fill_all values (Lit text) = Lit text.
Proof. induction values as [| v values IH]; [reflexivity | exact IH]. Qed.

(** The first item with the name of the placeholder fills it. *)
Lemma fill_all_hole (values : list (string * string)) (m : string) :
  fill_all values (Hole m)
  = from_option Lit (Hole m) ((list_to_map values : gmap string string) !! m).
Proof.
  induction values as [| [name value] values IH]; [reflexivity |].
  unfold fill_all. cbn [foldl fill fst snd list_to_map foldr].
  destruct (decide (m = name)) as [-> | Hne].
  - fold (fill_all values (Lit value)).
    rewrite fill_all_lit, lookup_insert_eq. reflexivity.
  - fold (fill_all values (Hole m)).
    rewrite IH, lookup_insert_ne by congruence. reflexivity.
Qed.

End Chunks.

Section Personalize.

Lemma avoids_app (c : ascii) (s t : string) :
  avoids c (s +:+ t) = avoids c s && avoids c t.
Proof.
  induction s as [| a s IH]; [reflexivity |].
  rewrite app_cons. simpl. rewrite IH, andb_assoc. reflexivity.
Qed.

Lemma avoids_lstrip (c : ascii) (s : string) :
  avoids c s = true -> avoids c (PyStr.lstrip s) = true.
Proof.
  induction s as [| a s IH]; intros Hs; [reflexivity |].
  simpl. destruct (PyStr.isspace a); [| exact Hs].
  simpl in Hs. apply andb_prop in Hs as [_ Hs]. auto.
Qed.

Lemma avoids_rstrip (c : ascii) (s : string) :
  avoids c s = true -> avoids c (PyStr.rstrip s) = true.
Proof.
  induction s as [| a s IH]; intros Hs; [reflexivity |].
  simpl in Hs. apply andb_prop in Hs as [Ha Hs]. specialize (IH Hs).
  simpl. destruct (PyStr.rstrip s) as [| b r].
  - destruct (PyStr.isspace a); [reflexivity |]. simpl. rewrite Ha. reflexivity.
  - cbn [avoids]. rewrite Ha. exact IH.
Qed.

Lemma brace_free_strip (s : string) :
  brace_free s = true -> brace_free (PyStr.strip s) = true.
Proof.
  unfold brace_free, PyStr.strip. intros [Ho Hc]%andb_prop.
  rewrite !avoids_rstrip by (apply avoids_lstrip; assumption). reflexivity.
Qed.

Lemma brace_free_app (s t : string) :
  brace_free s = true -> brace_free t = true -> brace_free (s +:+ t) = true.
Proof.
  unfold brace_free. intros [Hs Hs']%andb_prop [Ht Ht']%andb_prop.
  rewrite !avoids_app, Hs, Hs', Ht, Ht'. reflexivity.
Qed.

Lemma custom_placeholder_token (field_name : string) :
  custom_placeholder field_name = token ("custom." +:+ field_name).
Proof. reflexivity. Qed.

Lemma substitutions_tokenize (contact : Contact) :
  substitutions contact = tokenize <$> named_values contact.
Proof.
  unfold substitutions, named_values. rewrite fmap_app. f_equal.
  rewrite <- list_fmap_compose. reflexivity.
Qed.

(** [personalize_email] is one sequence of passes. *)
Lemma personalize_email_passes (template_content : string) (contact : Contact) :
  personalize_email template_content contact
  = replace_each (substitutions contact) template_content.
Proof.
  unfold personalize_email, substitutions, replace_each.
  rewrite foldl_app. destruct (custom_fields contact); reflexivity.
Qed.

Lemma named_values_plain (contact : Contact) :
  plain_contact contact = true -> Forall plain_item (named_values contact).
Proof.
  unfold plain_contact.
  intros [[[[Hfirst Hlast]%andb_prop Hemail]%andb_prop Hcompany]%andb_prop Hcustom]%andb_prop.
  unfold named_values. apply Forall_app. split.
  - assert (Hfull : brace_free
              (PyStr.strip (first_name contact +:+ " " +:+ last_name contact)) = true).
    { apply brace_free_strip, brace_free_app; [exact Hfirst |].
      apply brace_free_app; [reflexivity | exact Hlast]. }
    repeat (constructor; [split; [reflexivity | assumption] |]).
    constructor.
  - induction (custom_fields contact) as [| [k v] fields IH]; [constructor |].
    simpl in Hcustom.
    apply andb_prop in Hcustom as [[Hk Hv]%andb_prop Hcustom].
    constructor; [| apply IH, Hcustom].
    split; [apply brace_free_app; [reflexivity | exact Hk] | exact Hv].
Qed.

Lemma strip_prefix_app (p r : string) : strip_prefix p (p +:+ r) = Some r.
Proof.
  induction p as [| a p IH]; [destruct r; reflexivity |].
  rewrite app_cons. simpl. rewrite Ascii.eqb_refl. exact IH.
Qed.

Lemma strip_prefix_Some (p s r : string) : strip_prefix p s = Some r -> s = p +:+ r.
Proof.
  revert s. induction p as [| a p IH]; intros [| b s] Hs; simpl in Hs;
    try discriminate; try (inversion Hs; reflexivity).
  destruct (Ascii.eqb a b) eqn:Hab; [| discriminate].
  apply Ascii.eqb_eq in Hab. subst b. rewrite app_cons. f_equal. auto.
Qed.

(** A custom field is found under its prefixed name, and nothing else
    is. *)
Lemma custom_lookup (fields : list (string * string)) (m : string) :
  (list_to_map (map (fun field => ("custom." +:+ field.1, field.2)) fields)
     : gmap string string) !! m
  = field ← strip_prefix "custom." m;
    (list_to_map fields : gmap string string) !! field.
Proof.
  induction fields as [| [k v] fields IH].
  - cbn [map list_to_map foldr]. rewrite lookup_empty.
    destruct (strip_prefix "custom." m); reflexivity.
  - cbn [map list_to_map foldr fst snd].
    destruct (decide (m = "custom." +:+ k)) as [-> | Hne].
    + rewrite lookup_insert_eq, strip_prefix_app. simpl.
      rewrite lookup_insert_eq. reflexivity.
    + rewrite lookup_insert_ne by congruence. rewrite IH.
      destruct (strip_prefix "custom." m) as [field |] eqn:Hm; [| reflexivity].
      simpl. rewrite lookup_insert_ne; [reflexivity |].
      intros ->. apply Hne. apply strip_prefix_Some, Hm.
Qed.

(** The value the specification gives to a name is the one of the
    first item that [personalize_email] has for it. *)
Lemma spec_value_named (contact : Contact) (m : string) :
  spec_value contact m
  = (list_to_map (named_values contact) : gmap string string) !! m.
Proof.
  unfold spec_value, named_values. rewrite list_to_map_app.
  cbn [list_to_map foldr fst snd].
  repeat (destruct (decide _) as [-> | ?];
          [ rewrite lookup_union_l';
            [ rewrite ?lookup_insert_ne by discriminate;
              rewrite lookup_insert_eq; reflexivity
            | rewrite ?lookup_insert_ne by discriminate;
              rewrite lookup_insert_eq; eauto ]
          | ]).
  rewrite lookup_union_r.
  - apply eq_sym, custom_lookup.
  - rewrite !lookup_insert_ne by congruence. apply lookup_empty.
Qed.

Lemma fill_all_spec (contact : Contact) (ch : chunk) :
  fill_all (named_values contact) ch
  = match ch with
    | Lit text => ch
    | Hole name => from_option Lit ch (spec_value contact name)
    end.
Proof.
  destruct ch as [text | name].
  - apply fill_all_lit.
  - rewrite fill_all_hole, spec_value_named. reflexivity.
Qed.

Lemma named_values_NoDup (contact : Contact) :
  NoDup (custom_fields contact).*1 -> NoDup (named_values contact).*1.
Proof.
  intros Hkeys. unfold named_values. rewrite fmap_app. apply NoDup_app.
  split; [| split].
  - apply (bool_decide_unpack _). vm_compute. reflexivity.
  - intros name Hname Hcustom.
    rewrite <- list_fmap_compose in Hcustom.
    apply list_elem_of_fmap in Hcustom as ([k v] & -> & _).
    cbn [compose fst fmap list_fmap] in Hname.
    repeat (apply elem_of_cons in Hname as [Hname | Hname]; [discriminate Hname |]).
    inversion Hname.
  - assert ((map (fun field : string * string => ("custom." +:+ field.1, field.2))
               (custom_fields contact)).*1
            = String.app "custom." <$> (custom_fields contact).*1) as ->
      by (rewrite <- !list_fmap_compose; reflexivity).
    apply (NoDup_fmap_2 _), Hkeys.
Qed.

(** C8, amended: for every template made of brace-free literal text and
    placeholders [{{name}}] with brace-free names, and every contact
    whose values and custom-field names hold no brace,
    [personalize_email] replaces every occurrence of each recognized
    placeholder (first_name, last_name, full_name, email, company, and
    custom.f for each key f of the custom fields) by the contact's
    value and leaves every other placeholder, a custom.f for an absent
    field included, as it stands. *)
Theorem personalize_email_renders (chunks : list chunk) (contact : Contact) :
  well_formed chunks = true ->
  plain_contact contact = true ->
  personalize_email (template_text chunks) contact = spec_render contact chunks.
Proof.
  intros Hwf Hplain.
  rewrite personalize_email_passes, substitutions_tokenize.
  rewrite replace_each_fill by (try apply named_values_plain; assumption).
  unfold spec_render. f_equal. apply list_fmap_ext. intros _ ch _.
  apply fill_all_spec.
Qed.

(** C9, amended: for every well-formed template and every contact whose
    values and custom-field names hold no brace, going through the
    substitutions of [personalize_email] in any order gives the result
    of [personalize_email]. *)
Theorem substitution_order_irrelevant (chunks : list chunk) (contact : Contact)
    (items : list (string * string)) :
  well_formed chunks = true ->
  plain_contact contact = true ->
  NoDup (custom_fields contact).*1 ->
  items ≡ₚ substitutions contact ->
  replace_each items (template_text chunks)
  = personalize_email (template_text chunks) contact.
Proof.
  intros Hwf Hplain Hkeys Hperm.
  rewrite personalize_email_passes, substitutions_tokenize in *.
  apply Permutation_map_inv in Hperm as (values & -> & Hvalues).
  pose proof (named_values_plain contact Hplain) as Hnamed.
  change (map tokenize values) with (tokenize <$> values).
  rewrite !replace_each_fill; try assumption.
  - f_equal. apply list_fmap_ext. intros _ [text | name] _.
    + rewrite !fill_all_lit. reflexivity.
    + rewrite !fill_all_hole. do 2 f_equal. symmetry.
      apply list_to_map_proper; [apply named_values_NoDup, Hkeys | exact Hvalues].
  - rewrite <- Hvalues. exact Hnamed.
Qed.

End Personalize.

(** ** The properties on the concrete scenario *)

Section Concrete.
Import Scenario Fixtures.

Ltac existing_campaign :=
  cbv zeta;
  rewrite ?(send_campaign_existing welcome None _ (CampaignDoc.asdict campaign) eq_refl).


(** C2: a@x.com is in list A and in list B.  The loop over the lists
    raises at its first lookup, and the call, which raises before it
    gets there, has sent to nobody. *)
Theorem two_lists_resolve_nobody :
  let m := manager gmail in
  gather_contacts ["listA"; "listB"] m = (Raise (AttributeError no_ObjectId), m)
  /\ send_campaign welcome None m = (Raise (AttributeError no_ObjectId), m)
  /\ email_logs_collection (send_campaign welcome None m).2 = [].
Proof. existing_campaign. repeat split. Qed.

(** C3: the campaign exists and its template does not.  The call raises
    the [AttributeError] of [pymongo.ObjectId]; the lookup of the
    template and its [ValueError] are not reached.  Nothing is written. *)
Theorem template_lookup_not_reached :
  let m := orphan_manager in
  find_campaign welcome (campaigns_collection m) = Some (CampaignDoc.asdict campaign)
  /\ templates_collection m !! CampaignDoc.template_id (CampaignDoc.asdict campaign) = None
  /\ send_campaign welcome None m = (Raise (AttributeError no_ObjectId), m).
Proof. existing_campaign. repeat split. Qed.




(** C7: a campaign with a template and no resolvable recipient.  The
    call raises instead of returning the zero statistics, and the status
    stays draft. *)
Theorem no_recipients_raises :
  let run := send_campaign welcome None (empty_manager gmail) in
  run.1 = Raise (AttributeError no_ObjectId)
  /\ run.1 <> Return {| sent := 0; failed := 0; total := 0 |}
  /\ find_campaign welcome (campaigns_collection run.2) ≫= CampaignDoc.get "status"
     = Some (VStr "draft").
Proof.
  existing_campaign. split; [reflexivity |]. split; [discriminate |].
  vm_compute. reflexivity.
Qed.

(** C10: no server configured, two resolvable recipients.  The call
    raises instead of returning 0 sent and 2 failed of 2. *)
Theorem unconfigured_dispatch_raises :
  let run := send_campaign welcome None (manager smtp_unconfigured) in
  server (smtp_config (manager smtp_unconfigured)) = ""
  /\ run.1 = Raise (AttributeError no_ObjectId)
  /\ run.1 <> Return {| sent := 0; failed := 2; total := 2 |}
  /\ email_logs_collection run.2 = [].
Proof. existing_campaign. split; [reflexivity |]. split; [reflexivity |]. split; [discriminate | reflexivity]. Qed.

(** C8, on the scenario of the specification. *)
Lemma personalize_email_renders_scenario :
  personalize_email "Hi {{first_name}}!" ana = "Hi Ana!".
Proof.
  refine (personalize_email_renders [Lit "Hi "; Hole "first_name"; Lit "!"] ana _ _);
    reflexivity.
Defined.

(** C8 as stated fails: the value of first_name reads like a
    placeholder, and the later pass for last_name replaces it. *)
Lemma value_replaced_again :
  personalize_email (template_text greeting) contact_braces = "Hi Doe"
  /\ spec_render contact_braces greeting = "Hi {{last_name}}"
  /\ personalize_email (template_text greeting) contact_braces
     <> spec_render contact_braces greeting.
Proof. vm_compute. repeat split; [reflexivity .. | discriminate]. Qed.

(** C9, on the scenario: the substitutions for a@x.com in reverse. *)
Lemma substitution_order_irrelevant_scenario :
  replace_each (reverse (substitutions contact_a))
    "Hello {{full_name}} of {{company}}, {{custom.city}}"
  = "Hello Ana Lima of Acme, Porto".
Proof.
  refine (substitution_order_irrelevant
            [Lit "Hello "; Hole "full_name"; Lit " of "; Hole "company"; Lit ", ";
             Hole "custom.city"]
            contact_a (reverse (substitutions contact_a)) _ _ _ _).
  - reflexivity.
  - reflexivity.
  - apply NoDup_singleton.
  - apply reverse_Permutation.
Defined.

(** C9 as stated fails: in the order of the code the value of
    first_name is replaced again by the pass for last_name; in the
    reverse order it is not. *)
Lemma substitution_order_matters :
  reverse (substitutions contact_braces) ≡ₚ substitutions contact_braces
  /\ personalize_email "{{first_name}}" contact_braces = "Doe"
  /\ replace_each (reverse (substitutions contact_braces)) "{{first_name}}"
     = "{{last_name}}"
  /\ replace_each (reverse (substitutions contact_braces)) "{{first_name}}"
     <> personalize_email "{{first_name}}" contact_braces.
Proof.
  split; [apply reverse_Permutation |]. vm_compute.
  repeat split; [reflexivity .. | discriminate].
Qed.

End Concrete.

(** ** Address validation *)

Section Validation.

Lemma app_eq_empty (s1 s2 : string) : s1 +:+ s2 = "" -> s1 = "" /\ s2 = "".
Proof.
  destruct s1; [rewrite app_empty_l; intros ->; split; reflexivity | discriminate].
Qed.

Lemma nullable_lang (r : Regex.t) : Regex.nullable r = true <-> Regex.lang r "".
Proof.
  split.
  - induction r as [| | p | r1 IH1 r2 IH2 | r1 IH1 r2 IH2 | r IH]; simpl; intros Hn;
      try discriminate.
    + constructor.
    + apply andb_prop in Hn as [H1 H2].
      change ("" : string) with ("" +:+ "")%string. constructor; auto.
    + apply orb_prop in Hn as [H1 | H2];
        [apply Regex.lang_alt_l | apply Regex.lang_alt_r]; auto.
    + constructor.
  - intros Hlang. remember ("" : string) as s eqn:Hs.
    induction Hlang as [| p c Hp | r1 r2 s1 s2 _ IH1 _ IH2 | r1 r2 s _ IH | r1 r2 s _ IH
                        | r | r s1 s2 _ _ _ _]; simpl; try reflexivity; try discriminate.
    + apply app_eq_empty in Hs as [-> ->].
      rewrite IH1, IH2 by reflexivity. reflexivity.
    + rewrite IH by exact Hs. reflexivity.
    + rewrite IH by exact Hs. apply orb_true_r.
Qed.

(** A non-empty string of [r*] starts with a non-empty string of [r]. *)
Lemma lang_star_cons_inv (r : Regex.t) (c : ascii) (s : string) :
  Regex.lang (Regex.Star r) (String c s) ->
  exists s1 s2, s = s1 +:+ s2 /\ Regex.lang r (String c s1) /\ Regex.lang (Regex.Star r) s2.
Proof.
  intros Hlang. remember (Regex.Star r) as r' eqn:Hr. remember (String c s) as s' eqn:Hs.
  induction Hlang as [| | | | | | r0 s1 s2 H1 _ H2 IH2]; try discriminate.
  inversion Hr; subst r0. destruct s1 as [| a s1].
  - apply IH2; [reflexivity | exact Hs].
  - rewrite app_cons in Hs. inversion Hs; subst a s. eauto.
Qed.

Lemma deriv_lang (c : ascii) (r : Regex.t) (s : string) :
  Regex.lang (Regex.deriv c r) s <-> Regex.lang r (String c s).
Proof.
  revert s. induction r as [| | p | r1 IH1 r2 IH2 | r1 IH1 r2 IH2 | r IH]; intros s; simpl.
  - split; intros H; inversion H.
  - split; intros H; inversion H.
  - destruct (p c) eqn:Hp; split; intros H; inversion H; subst.
    + constructor. exact Hp.
    + constructor.
    + congruence.
  - split.
    + intros H. destruct (Regex.nullable r1) eqn:Hn.
      * inversion H as [| | | ? ? ? H' | ? ? ? H' | |]; subst.
        -- inversion H' as [| | ? ? s1 s2 H1 H2 | | | |]; subst.
           rewrite <- app_cons. constructor; [apply IH1, H1 | exact H2].
        -- change (String c s) with ("" +:+ String c s)%string.
           constructor; [apply nullable_lang, Hn | apply IH2, H'].
      * inversion H as [| | ? ? s1 s2 H1 H2 | | | |]; subst.
        rewrite <- app_cons. constructor; [apply IH1, H1 | exact H2].
    + intros H. inversion H as [| | ? ? s1 s2 H1 H2 Hr Hs | | | |]; subst.
      destruct s1 as [| a s1].
      * rewrite app_empty_l in Hs. subst s2.
        apply nullable_lang in H1. rewrite H1.
        apply Regex.lang_alt_r, IH2, H2.
      * rewrite app_cons in Hs. inversion Hs; subst a s.
        assert (Hseq : Regex.lang (Regex.Seq (Regex.deriv c r1) r2) (s1 +:+ s2))
          by (constructor; [apply IH1, H1 | exact H2]).
        destruct (Regex.nullable r1); [apply Regex.lang_alt_l |]; exact Hseq.
  - split; intros H; inversion H; subst;
      solve [apply Regex.lang_alt_l, IH1; assumption
            | apply Regex.lang_alt_r, IH2; assumption].
  - split.
    + intros H. inversion H as [| | ? ? s1 s2 H1 H2 | | | |]; subst.
      rewrite <- app_cons. constructor; [apply IH, H1 | exact H2].
    + intros H. apply lang_star_cons_inv in H as (s1 & s2 & -> & H1 & H2).
      constructor; [apply IH, H1 | exact H2].
Qed.

(** The matcher decides the strings of the expression. *)
Lemma fullmatch_lang (r : Regex.t) (s : string) :
  Regex.fullmatch r s = true <-> Regex.lang r s.
Proof.
  revert r. induction s as [| c s IH]; intros r; simpl.
  - apply nullable_lang.
  - rewrite IH. apply deriv_lang.
Qed.

Example validate_email_accepts :
  validate_email "john.doe@example.com" = true
  /\ validate_email "a_b%c+d-e@mail.example-site.org" = true.
Proof. split; reflexivity. Qed.

Example validate_email_rejects :
  validate_email "" = false
  /\ validate_email "john@example" = false
  /\ validate_email "john@example.c" = false
  /\ validate_email "john doe@example.com" = false
  /\ validate_email "john@@example.com" = false
  /\ validate_email "john@.com" = false
  /\ validate_email "john@example.c0m" = false.
Proof. repeat split; reflexivity. Qed.

Lemma lang_seq_inv (r1 r2 : Regex.t) (s : string) :
  Regex.lang (Regex.Seq r1 r2) s ->
  exists s1 s2, s = s1 +:+ s2 /\ Regex.lang r1 s1 /\ Regex.lang r2 s2.
Proof. intros H. inversion H; subst. eauto. Qed.

Lemma lang_chars_inv (p : ascii -> bool) (s : string) :
  Regex.lang (Regex.Chars p) s -> exists c, s = String c "" /\ p c = true.
Proof. intros H. inversion H; subst. eauto. Qed.

Lemma all_chars_app (q : ascii -> bool) (s t : string) :
  all_chars q (s +:+ t) = all_chars q s && all_chars q t.
Proof.
  induction s as [| a s IH]; [reflexivity |].
  rewrite app_cons. simpl. rewrite IH, andb_assoc. reflexivity.
Qed.

Lemma count_char_app (c : ascii) (s t : string) :
  count_char c (s +:+ t) = (count_char c s + count_char c t)%nat.
Proof.
  induction s as [| a s IH]; [reflexivity |].
  rewrite app_cons. simpl. rewrite IH. lia.
Qed.

Lemma count_char_none (c : ascii) (s : string) :
  all_chars (fun a => negb (Ascii.eqb a c)) s = true -> count_char c s = 0%nat.
Proof.
  induction s as [| a s IH]; [reflexivity |]. simpl.
  intros [Ha Hs]%andb_prop. apply negb_true_iff in Ha. rewrite Ha, IH by exact Hs.
  reflexivity.
Qed.

(** The strings of an expression are made of the characters of its
    classes. *)
Lemma lang_all_chars (q : ascii -> bool) (r : Regex.t) (s : string) :
  classes_within q r -> Regex.lang r s -> all_chars q s = true.
Proof.
  intros Hq Hlang.
  induction Hlang as [| p c Hp | r1 r2 s1 s2 _ IH1 _ IH2 | r1 r2 s _ IH | r1 r2 s _ IH
                      | r | r s1 s2 _ IH1 _ IH2]; simpl in Hq.
  - reflexivity.
  - simpl. rewrite (Hq c Hp). reflexivity.
  - destruct Hq as [Hq1 Hq2]. rewrite all_chars_app, IH1, IH2 by assumption. reflexivity.
  - apply IH, Hq.
  - apply IH, Hq.
  - reflexivity.
  - rewrite all_chars_app, IH1, IH2 by assumption. reflexivity.
Qed.

Lemma email_pattern_chars : classes_within address_char (Regex.Seq email_pattern dollar).
Proof.
  simpl. repeat split; intros [[|] [|] [|] [|] [|] [|] [|] [|]]; vm_compute;
    first [reflexivity | discriminate].
Qed.

(** The two parts of an accepted string: one of the pattern, and what
    [$] lets through. *)
Lemma validate_email_parts (e : string) :
  validate_email e = true ->
  exists local rest tail,
    e = (local +:+ "@" +:+ rest) +:+ tail
    /\ all_chars (fun a => negb (Ascii.eqb a "@")) local = true
    /\ all_chars (fun a => negb (Ascii.eqb a "@")) rest = true
    /\ Regex.lang email_pattern (local +:+ "@" +:+ rest)
    /\ (tail = "" \/ tail = String newline "").
Proof.
  intros Hvalid. apply fullmatch_lang in Hvalid.
  apply lang_seq_inv in Hvalid as (body & tail & -> & Hbody & Htail).
  pose proof Hbody as Hpattern.
  apply lang_seq_inv in Hbody as (local & s1 & -> & Hlocal & Hs1).
  apply lang_seq_inv in Hs1 as (at_sign & rest & -> & Hat & Hrest).
  apply lang_chars_inv in Hat as (c & -> & Hc). apply Ascii.eqb_eq in Hc. subst c.
  exists local, rest, tail. split; [reflexivity |].
  split; [| split; [| split; [exact Hpattern |]]].
  - eapply lang_all_chars; [| exact Hlocal].
    simpl. repeat split; intros [[|] [|] [|] [|] [|] [|] [|] [|]]; vm_compute;
      first [reflexivity | discriminate].
  - eapply lang_all_chars; [| exact Hrest].
    simpl. repeat split; intros [[|] [|] [|] [|] [|] [|] [|] [|]]; vm_compute;
      first [reflexivity | discriminate].
  - inversion Htail as [| | | ? ? ? H | ? ? ? H | |]; subst.
    + inversion H. left; reflexivity.
    + apply lang_chars_inv in H as (c & -> & Hc). apply Ascii.eqb_eq in Hc. subst c.
      right; reflexivity.
Qed.

(** X1: an address that [validate_email] accepts holds exactly one at
    sign. *)
Theorem validate_email_one_at (e : string) :
  validate_email e = true -> count_char "@" e = 1%nat.
Proof.
  intros Hvalid.
  destruct (validate_email_parts e Hvalid) as (local & rest & tail & -> & Hl & Hr & _ & Ht).
  rewrite !count_char_app, (count_char_none _ _ Hl), (count_char_none _ _ Hr).
  destruct Ht as [-> | ->]; reflexivity.
Qed.

(** X2: every character of an accepted address is a letter, a digit, one
    of . _ % + - @, or a newline; so it holds no blank. *)
Theorem validate_email_characters (e : string) :
  validate_email e = true ->
  all_chars address_char e = true /\ count_char " " e = 0%nat.
Proof.
  intros Hvalid. apply fullmatch_lang in Hvalid.
  pose proof (lang_all_chars _ _ _ email_pattern_chars Hvalid) as Hchars.
  split; [exact Hchars |]. apply count_char_none.
  clear Hvalid. induction e as [| a e IH]; [reflexivity |].
  simpl in *. apply andb_prop in Hchars as [Ha He]. rewrite IH by exact He.
  rewrite andb_true_r. revert Ha. clear.
  destruct a as [[|] [|] [|] [|] [|] [|] [|] [|]]; vm_compute;
    first [reflexivity | discriminate | intros; discriminate].
Qed.

(** X3: [$] lets a final newline through: an accepted address without a
    newline is still accepted with a newline after it. *)
Theorem validate_email_trailing_newline (e : string) :
  validate_email e = true ->
  count_char newline e = 0%nat ->
  validate_email (e +:+ String newline "") = true.
Proof.
  intros Hvalid Hnone.
  destruct (validate_email_parts e Hvalid)
    as (local & rest & tail & -> & _ & _ & Hpattern & [-> | ->]).
  - rewrite app_empty_r. apply fullmatch_lang. constructor; [exact Hpattern |].
    apply Regex.lang_alt_r. constructor. reflexivity.
  - rewrite count_char_app in Hnone. simpl in Hnone. lia.
Qed.

End Validation.

(** ** Lookups by a field *)

Section FindOne.
Context {A : Type} (P : A -> Prop) `{!forall x, Decision (P x)}.
Implicit Types coll : gmap string A.

Lemma find_one_Some coll k v :
  find_one P coll = Some (k, v) -> coll !! k = Some v /\ P v.
Proof.
  unfold find_one. intros Hhead. apply head_Some_elem_of in Hhead.
  apply list_elem_of_filter in Hhead as [HP Hin].
  apply elem_of_map_to_list in Hin. auto.
Qed.

Lemma find_one_None coll :
  find_one P coll = None <-> forall k v, coll !! k = Some v -> ~ P v.
Proof.
  unfold find_one. rewrite head_None. split.
  - intros Hnil k v Hk HP.
    apply (filter_nil_not_elem_of _ _ (k, v) Hnil HP), elem_of_map_to_list, Hk.
  - intros Hnone. apply elem_of_nil_inv. intros [k v] Hin.
    apply list_elem_of_filter in Hin as [HP Hin].
    apply elem_of_map_to_list in Hin. exact (Hnone k v Hin HP).
Qed.

(** When one document only matches, it is the one found. *)
Lemma find_one_only coll k v :
  coll !! k = Some v -> P v ->
  (forall k' v', coll !! k' = Some v' -> P v' -> k' = k) ->
  find_one P coll = Some (k, v).
Proof.
  intros Hk HP Honly.
  destruct (find_one P coll) as [[k' v'] |] eqn:Hfind.
  - apply find_one_Some in Hfind as [Hk' HP'].
    pose proof (Honly k' v' Hk' HP'). subst k'. congruence.
  - exfalso. exact (proj1 (find_one_None coll) Hfind k v Hk HP).
Qed.

End FindOne.

(** ** Contacts *)

Section Contacts.
Context {ext : External}.
Implicit Types (m : Manager ext) (contact : Contact).

Lemma unique_by_insert {A B} (f : A -> B) (coll : gmap string A) (k : string) (x : A) :
  unique_by f coll ->
  (forall j y, coll !! j = Some y -> f y <> f x) ->
  unique_by f (<[k := x]> coll).
Proof.
  intros Huniq Hfresh i j a b Hi Hj Hf.
  destruct (decide (i = k)) as [-> | Hik]; destruct (decide (j = k)) as [-> | Hjk];
    try reflexivity.
  - rewrite lookup_insert_eq in Hi. rewrite lookup_insert_ne in Hj by congruence.
    inversion Hi; subst a. exfalso. exact (Hfresh j b Hj (eq_sym Hf)).
  - rewrite lookup_insert_eq in Hj. rewrite lookup_insert_ne in Hi by congruence.
    inversion Hj; subst b. exfalso. exact (Hfresh i a Hi Hf).
  - rewrite lookup_insert_ne in Hi, Hj by congruence. exact (Huniq i j a b Hi Hj Hf).
Qed.

(** X4: when [add_contact] raises, it is a [ValueError], no collection
    has changed, and either the address is not valid, or the [_id] is
    taken, or a stored contact has the address already. *)
Theorem add_contact_refused new_id contact m e m' :
  add_contact new_id contact m = (Raise e, m') ->
  (exists msg, e = ValueError msg)
  /\ contacts_collection m' = contacts_collection m
  /\ templates_collection m' = templates_collection m
  /\ campaigns_collection m' = campaigns_collection m
  /\ contact_lists_collection m' = contact_lists_collection m
  /\ email_logs_collection m' = email_logs_collection m
  /\ (validate_email (email contact) = false
      \/ is_Some (contacts_collection m !! new_id)
      \/ exists k c, contacts_collection m !! k = Some c /\ email c = email contact).
Proof.
  unfold add_contact, bind, gets, now, modify, ret, raise.
  destruct (validate_email (email contact)).
  - destruct (datetime_now (world m)) as [t w]. simpl.
    destruct (contacts_collection m !! new_id) as [c0 |] eqn:Hid.
    + intros Hrun. inversion Hrun; subst. simpl.
      split; [eauto |]. repeat split; eauto.
    + destruct (find_one _ _) as [[k c] |] eqn:Hfind; intros Hrun; inversion Hrun; subst.
      simpl. apply find_one_Some in Hfind as [Hk Hc].
      split; [eauto |]. repeat split. right; right; eauto.
  - intros Hrun. inversion Hrun; subst.
    split; [eauto |]. repeat split. left; reflexivity.
Qed.

(** X5: a contact with a valid address that no stored contact has,
    inserted under a free [_id], is stored, and [get_contact] on its
    address then returns it. *)
Theorem add_contact_get_contact new_id contact m :
  validate_email (email contact) = true ->
  contacts_collection m !! new_id = None ->
  (forall k c, contacts_collection m !! k = Some c -> email c <> email contact) ->
  exists m',
    add_contact new_id contact m = (Return new_id, m')
    /\ contacts_collection m' = <[new_id := contact]> (contacts_collection m)
    /\ get_contact (email contact) m' = (Return (Some contact), m').
Proof.
  intros Hvalid Hid Hfresh.
  unfold add_contact, bind, gets, now, modify, ret, raise. rewrite Hvalid.
  destruct (datetime_now (world m)) as [t w]. simpl. rewrite Hid.
  rewrite (proj2 (find_one_None _ _)) by exact Hfresh.
  eexists. split; [reflexivity |]. split; [reflexivity |].
  unfold get_contact, bind, gets, ret. simpl.
  rewrite (find_one_only _ _ new_id contact); [reflexivity | apply lookup_insert_eq
                                               | reflexivity |].
  intros k' c' Hk' Hc'. destruct (decide (k' = new_id)) as [| Hne]; [assumption |].
  rewrite lookup_insert_ne in Hk' by congruence. exfalso. exact (Hfresh k' c' Hk' Hc').
Qed.

(** X6: [add_contact] keeps the addresses of the stored contacts
    distinct, whether it inserts or refuses. *)
Theorem add_contact_unique_emails new_id contact m r m' :
  unique_by email (contacts_collection m) ->
  add_contact new_id contact m = (r, m') ->
  unique_by email (contacts_collection m').
Proof.
  intros Huniq. unfold add_contact, bind, gets, now, modify, ret, raise.
  destruct (validate_email (email contact)); [| intros Hrun; inversion Hrun; subst; exact Huniq].
  destruct (datetime_now (world m)) as [t w]. simpl.
  destruct (contacts_collection m !! new_id) as [c0 |] eqn:Hid;
    [intros Hrun; inversion Hrun; subst; exact Huniq |].
  destruct (find_one _ _) as [[k c] |] eqn:Hfind; intros Hrun; inversion Hrun; subst;
    [exact Huniq |].
  simpl. apply unique_by_insert; [exact Huniq |].
  exact (proj1 (find_one_None _ _) Hfind).
Qed.

(** X7: with distinct addresses, [delete_contact] returns whether a
    contact had the address, and afterwards [get_contact] on the address
    returns [None]; the other contacts stay. *)
Theorem delete_contact_get_contact address m :
  unique_by email (contacts_collection m) ->
  exists (deleted : bool) m',
    delete_contact address m = (Return deleted, m')
    /\ (deleted = true <->
        exists k c, contacts_collection m !! k = Some c /\ email c = address)
    /\ get_contact address m' = (Return None, m')
    /\ (forall k c, contacts_collection m !! k = Some c -> email c <> address ->
          contacts_collection m' !! k = Some c).
Proof.
  intros Huniq. unfold delete_contact, get_contact, bind, gets, modify, ret.
  destruct (find_one (fun c => email c = address) (contacts_collection m))
    as [[k c] |] eqn:Hfind.
  - apply find_one_Some in Hfind as [Hk Hc].
    eexists true, _. split; [reflexivity |]. split; [split; eauto |]. simpl. split.
    + rewrite (proj2 (find_one_None _ _)); [reflexivity |].
      intros k' c' Hk' Hc'. apply lookup_delete_Some in Hk' as [Hne Hk'].
      apply Hne. apply (Huniq k k' c c' Hk Hk'). congruence.
    + intros k' c' Hk' Hc'. rewrite lookup_delete_ne; [exact Hk' |].
      intros ->. rewrite Hk in Hk'. inversion Hk'; subst. contradiction.
  - eexists false, _. split; [reflexivity |]. split; [| split].
    + split; [discriminate |]. intros (k & c & Hk & Hc). exfalso.
      exact (proj1 (find_one_None _ _) Hfind k c Hk Hc).
    + rewrite Hfind. reflexivity.
    + intros k c Hk _. exact Hk.
Qed.

End Contacts.

(** ** Contact lists *)

Section ContactLists.
Context {ext : External}.
Implicit Types (m : Manager ext) (arr values : list string).

Lemma add_to_set_snoc values v arr :
  add_to_set (values ++ [v]) arr
  = if decide (v ∈ add_to_set values arr) then add_to_set values arr
    else add_to_set values arr ++ [v].
Proof. unfold add_to_set. rewrite foldl_snoc. reflexivity. Qed.

Lemma add_to_set_elem values arr x :
  x ∈ add_to_set values arr <-> x ∈ arr \/ x ∈ values.
Proof.
  induction values as [| v values IH] using rev_ind.
  - simpl. rewrite elem_of_nil. tauto.
  - rewrite add_to_set_snoc, (elem_of_app values).
    destruct (decide (v ∈ add_to_set values arr)) as [Hin | Hin].
    + rewrite IH, list_elem_of_singleton. split; [tauto |].
      intros [? | [? | ->]]; [tauto | tauto | apply IH, Hin].
    + rewrite elem_of_app, IH, list_elem_of_singleton. tauto.
Qed.

Lemma add_to_set_NoDup values arr : NoDup arr -> NoDup (add_to_set values arr).
Proof.
  intros Harr. induction values as [| v values IH] using rev_ind; [exact Harr |].
  rewrite add_to_set_snoc. destruct (decide _) as [Hin | Hin]; [exact IH |].
  apply NoDup_app. split; [exact IH |]. split; [| apply NoDup_singleton].
  intros x Hx Hv. apply list_elem_of_singleton in Hv. subst x. contradiction.
Qed.

Lemma add_to_set_extends values arr : exists added, add_to_set values arr = arr ++ added.
Proof.
  induction values as [| v values [added IH]] using rev_ind.
  - exists []. simpl. rewrite app_nil_r. reflexivity.
  - rewrite add_to_set_snoc. destruct (decide _); [eauto |].
    exists (added ++ [v]). rewrite IH, app_assoc. reflexivity.
Qed.

(** Nothing is added when every value is a member already. *)
Lemma add_to_set_members values arr :
  (forall v, v ∈ values -> v ∈ arr) -> add_to_set values arr = arr.
Proof.
  induction values as [| v values IH] using rev_ind; intros Hall; [reflexivity |].
  rewrite add_to_set_snoc, IH by (intros x Hx; apply Hall, elem_of_app; auto).
  rewrite decide_True; [reflexivity |].
  apply Hall, elem_of_app. right. apply list_elem_of_singleton. reflexivity.
Qed.

Lemma add_to_set_again values arr :
  add_to_set values (add_to_set values arr) = add_to_set values arr.
Proof. apply add_to_set_members. intros v Hv. apply add_to_set_elem. auto. Qed.

(** The id of a stored contact is among the ids resolved for a list of
    addresses that holds its address. *)
Lemma resolve_emails_elem (contacts : gmap string Contact) emails k c :
  unique_by email contacts -> contacts !! k = Some c -> email c ∈ emails ->
  k ∈ resolve_emails contacts emails.
Proof.
  intros Huniq Hk Hin. unfold resolve_emails. apply list_elem_of_omap.
  exists (email c). split; [exact Hin |].
  rewrite (find_one_only _ _ k c); [reflexivity | exact Hk | reflexivity |].
  intros k' c' Hk' Hc'. exact (Huniq k' k c' c Hk' Hk Hc').
Qed.

Lemma find_list_by_name m list_id list_doc :
  unique_by ContactList.name (contact_lists_collection m) ->
  contact_lists_collection m !! list_id = Some list_doc ->
  find_one (fun l => ContactList.name l = ContactList.name list_doc)
    (contact_lists_collection m) = Some (list_id, list_doc).
Proof.
  intros Huniq Hl. apply find_one_only; [exact Hl | reflexivity |].
  intros k' l' Hk' Hn. exact (Huniq k' list_id l' list_doc Hk' Hl Hn).
Qed.

(** What [add_contacts_to_list] does to a list that exists. *)
Lemma add_contacts_to_list_found emails m list_id list_doc :
  unique_by ContactList.name (contact_lists_collection m) ->
  contact_lists_collection m !! list_id = Some list_doc ->
  let contact_ids := resolve_emails (contacts_collection m) emails in
  let updated := add_to_set contact_ids (ContactList.contact_ids list_doc) in
  add_contacts_to_list (ContactList.name list_doc) emails m
  = if decide (updated = ContactList.contact_ids list_doc) then (Return 0, m)
    else (Return (Z.of_nat (length contact_ids)),
          set_contact_lists
            (<[list_id := ContactList.mk (ContactList.name list_doc)
                            (ContactList.description list_doc) updated]>
               (contact_lists_collection m)) m).
Proof.
  intros Huniq Hl. cbn zeta. unfold add_contacts_to_list, bind, gets, modify, ret.
  rewrite (find_list_by_name m list_id list_doc Huniq Hl).
  destruct (decide _); reflexivity.
Qed.

(** X9: on a list that exists, [add_contacts_to_list] keeps the members
    the list had, in their order, adds the id of every stored contact
    whose address is given, and leaves no id twice. *)
Theorem add_contacts_to_list_members emails m list_id list_doc :
  unique_by ContactList.name (contact_lists_collection m) ->
  unique_by email (contacts_collection m) ->
  contact_lists_collection m !! list_id = Some list_doc ->
  NoDup (ContactList.contact_ids list_doc) ->
  exists n m' list_doc',
    add_contacts_to_list (ContactList.name list_doc) emails m = (Return n, m')
    /\ contact_lists_collection m' !! list_id = Some list_doc'
    /\ ContactList.name list_doc' = ContactList.name list_doc
    /\ NoDup (ContactList.contact_ids list_doc')
    /\ (exists added,
          ContactList.contact_ids list_doc' = ContactList.contact_ids list_doc ++ added)
    /\ (forall k c, contacts_collection m !! k = Some c -> email c ∈ emails ->
          k ∈ ContactList.contact_ids list_doc').
Proof.
  intros Hnames Hemails Hl Hnodup.
  rewrite (add_contacts_to_list_found emails m list_id list_doc Hnames Hl).
  destruct (decide _) as [Hsame | Hdiff].
  - exists 0, m, list_doc. split; [reflexivity |]. split; [exact Hl |].
    split; [reflexivity |]. split; [exact Hnodup |]. split.
    + exists []. rewrite app_nil_r. reflexivity.
    + intros k c Hk Hin. rewrite <- Hsame. apply add_to_set_elem. right.
      eapply resolve_emails_elem; eassumption.
  - eexists _, _, _. split; [reflexivity |]. simpl.
    split; [apply lookup_insert_eq |]. split; [reflexivity |]. simpl.
    split; [apply add_to_set_NoDup, Hnodup |]. split; [apply add_to_set_extends |].
    intros k c Hk Hin. apply add_to_set_elem. right.
    eapply resolve_emails_elem; eassumption.
Qed.

(** X10: [add_contacts_to_list] called again with the same addresses adds
    nothing: it returns 0 and leaves the manager as it is. *)
Theorem add_contacts_to_list_twice list_name emails m n m' :
  unique_by ContactList.name (contact_lists_collection m) ->
  add_contacts_to_list list_name emails m = (Return n, m') ->
  add_contacts_to_list list_name emails m' = (Return 0, m').
Proof.
  intros Hnames Hrun.
  destruct (find_one (fun l => ContactList.name l = list_name) (contact_lists_collection m))
    as [[list_id list_doc] |] eqn:Hfind.
  - apply find_one_Some in Hfind as [Hl Hname]. subst list_name.
    rewrite (add_contacts_to_list_found emails m list_id list_doc Hnames Hl) in Hrun.
    destruct (decide _) as [Hsame | Hdiff]; injection Hrun as Hn Hm; subst n m'.
    + rewrite (add_contacts_to_list_found emails m list_id list_doc Hnames Hl).
      rewrite decide_True by exact Hsame. reflexivity.
    + set (list_doc' := ContactList.mk (ContactList.name list_doc)
                          (ContactList.description list_doc)
                          (add_to_set (resolve_emails (contacts_collection m) emails)
                             (ContactList.contact_ids list_doc))).
      set (m' := set_contact_lists (<[list_id := list_doc']> (contact_lists_collection m)) m).
      assert (Hnames' : unique_by ContactList.name (contact_lists_collection m')).
      { intros i j x y Hi Hj Hxy. simpl in Hi, Hj.
        destruct (decide (i = list_id)) as [-> | Hi'];
          destruct (decide (j = list_id)) as [-> | Hj']; try reflexivity.
        - rewrite lookup_insert_eq in Hi. rewrite lookup_insert_ne in Hj by congruence.
          inversion Hi; subst x. symmetry. exact (Hnames j list_id y list_doc Hj Hl (eq_sym Hxy)).
        - rewrite lookup_insert_eq in Hj. rewrite lookup_insert_ne in Hi by congruence.
          inversion Hj; subst y. exact (Hnames i list_id x list_doc Hi Hl Hxy).
        - rewrite lookup_insert_ne in Hi, Hj by congruence.
          exact (Hnames i j x y Hi Hj Hxy). }
      assert (Hl' : contact_lists_collection m' !! list_id = Some list_doc')
        by apply lookup_insert_eq.
      change (ContactList.name list_doc) with (ContactList.name list_doc').
      rewrite (add_contacts_to_list_found emails m' list_id list_doc' Hnames' Hl').
      rewrite decide_True; [reflexivity |]. apply add_to_set_again.
  - unfold add_contacts_to_list, bind, gets, ret in Hrun. rewrite Hfind in Hrun.
    injection Hrun as Hn Hm. subst n m'.
    unfold add_contacts_to_list, bind, gets, ret. rewrite Hfind. reflexivity.
Qed.

(** X11: when at least one resolved id is new to the list,
    [add_contacts_to_list] returns the number of ids resolved, those
    already in the list and those resolved twice included, and not the
    number of ids added. *)
Theorem add_contacts_to_list_count emails m list_id list_doc contact_id :
  unique_by ContactList.name (contact_lists_collection m) ->
  contact_lists_collection m !! list_id = Some list_doc ->
  contact_id ∈ resolve_emails (contacts_collection m) emails ->
  contact_id ∉ ContactList.contact_ids list_doc ->
  exists m',
    add_contacts_to_list (ContactList.name list_doc) emails m
    = (Return (Z.of_nat (length (resolve_emails (contacts_collection m) emails))), m').
Proof.
  intros Hnames Hl Hin Hnew.
  rewrite (add_contacts_to_list_found emails m list_id list_doc Hnames Hl).
  destruct (decide _) as [Hsame | Hdiff]; [| eauto].
  exfalso. apply Hnew. rewrite <- Hsame. apply add_to_set_elem. auto.
Qed.

(** X12: [get_contact_list_contacts] returns the empty list for a name
    that no list has and for a list without members; for a list with a
    member it raises the [AttributeError] of [pymongo.ObjectId], whether
    the member is a stored contact or not, and leaves the manager as it
    is. *)
Theorem get_contact_list_contacts_outcome m :
  unique_by ContactList.name (contact_lists_collection m) ->
  (forall list_id list_doc,
      contact_lists_collection m !! list_id = Some list_doc ->
      get_contact_list_contacts (ContactList.name list_doc) m
      = (match ContactList.contact_ids list_doc with
         | [] => Return []
         | _ :: _ => Raise (AttributeError no_ObjectId)
         end, m))
  /\ (forall list_name,
        (forall list_id list_doc, contact_lists_collection m !! list_id = Some list_doc ->
                                  ContactList.name list_doc <> list_name) ->
        get_contact_list_contacts list_name m = (Return [], m)).
Proof.
  intros Hnames. split.
  - intros list_id list_doc Hl.
    unfold get_contact_list_contacts, bind, gets, ret.
    rewrite (find_list_by_name m list_id list_doc Hnames Hl).
    destruct (ContactList.contact_ids list_doc); reflexivity.
  - intros list_name Hnone. unfold get_contact_list_contacts, bind, gets, ret.
    rewrite (proj2 (find_one_None _ _)) by exact Hnone. reflexivity.
Qed.

End ContactLists.

(** ** Campaigns *)

Section Campaigns.
Context {ext : External}.
Implicit Types (m : Manager ext) (coll : list CampaignDoc.t).

Lemma find_campaign_None campaign_name coll :
  find_campaign campaign_name coll = None <-> campaign_name ∉ (CampaignDoc.name <$> coll).
Proof.
  induction coll as [| doc coll IH]; simpl.
  - split; [intros _ H; inversion H | reflexivity].
  - rewrite not_elem_of_cons.
    destruct (decide (CampaignDoc.name doc = campaign_name)) as [He | He].
    + split; [discriminate | intros [Hne _]; congruence].
    + rewrite IH. split; [intros H; split; [congruence | exact H] | tauto].
Qed.


(** X13: [create_campaign] refuses a name that a stored campaign has and
    then leaves the manager as it is; otherwise it returns the new id and
    the name comes last in [list_campaigns].  Either way the names of the
    campaigns stay distinct. *)
Theorem create_campaign_names new_id campaign m r m' :
  NoDup (CampaignDoc.name <$> campaigns_collection m) ->
  create_campaign new_id campaign m = (r, m') ->
  NoDup (CampaignDoc.name <$> campaigns_collection m')
  /\ ((Campaign.name campaign ∈ CampaignDoc.name <$> campaigns_collection m
       /\ r = Raise (ValueError ("Campaign with name '" +:+ Campaign.name campaign
                                 +:+ "' already exists"))
       /\ m' = m)
      \/ ((Campaign.name campaign ∉ CampaignDoc.name <$> campaigns_collection m)
          /\ r = Return new_id
          /\ list_campaigns m'
             = (Return ((CampaignDoc.name <$> campaigns_collection m)
                        ++ [Campaign.name campaign]), m'))).
Proof.
  intros Hnodup. unfold create_campaign, list_campaigns, bind, gets, modify, ret, raise.
  destruct (find_campaign (Campaign.name campaign) (campaigns_collection m))
    as [doc |] eqn:Hfind; intros Hrun; injection Hrun as Hr Hm; subst r m'.
  - split; [exact Hnodup |]. left. split; [| split; reflexivity].
    destruct (decide (Campaign.name campaign ∈ CampaignDoc.name <$> campaigns_collection m))
      as [Hin | Hin]; [exact Hin |].
    apply find_campaign_None in Hin. congruence.
  - apply find_campaign_None in Hfind. simpl. rewrite fmap_app. simpl.
    split; [| right; split; [exact Hfind | split; reflexivity]].
    apply NoDup_app. split; [exact Hnodup |]. split; [| apply NoDup_singleton].
    intros x Hx Hx'. apply list_elem_of_singleton in Hx'. subst x. contradiction.
Qed.


(** X16: [send_campaign] returns on no input.  It raises the
    [ValueError] of a campaign not found when no stored campaign has the
    name, and the [AttributeError] of [pymongo.ObjectId] when one has;
    either way it leaves the manager as it is: no log entry, no update
    of a campaign. *)
Theorem send_campaign_raises campaign_name attachments m :
  exists e,
    send_campaign campaign_name attachments m = (Raise e, m)
    /\ (((campaign_name ∉ CampaignDoc.name <$> campaigns_collection m)
         /\ e = ValueError ("Campaign not found: " +:+ campaign_name))
        \/ ((campaign_name ∈ CampaignDoc.name <$> campaigns_collection m)
            /\ e = AttributeError no_ObjectId)).
Proof.
  destruct (find_campaign campaign_name (campaigns_collection m)) as [doc |] eqn:Hdoc.
  - exists (AttributeError no_ObjectId).
    split; [exact (send_campaign_existing _ _ _ _ Hdoc) |]. right. split; [| reflexivity].
    destruct (decide (campaign_name ∈ CampaignDoc.name <$> campaigns_collection m))
      as [Hin | Hout]; [exact Hin |].
    apply find_campaign_None in Hout. congruence.
  - exists (ValueError ("Campaign not found: " +:+ campaign_name)).
    split; [exact (send_campaign_no_campaign _ _ _ Hdoc) |]. left.
    split; [apply find_campaign_None, Hdoc | reflexivity].
Qed.

End Campaigns.

(** ** Configuring and sending, templates *)

Section Compose.
Context {ext : External}.
Implicit Types (m : Manager ext).

(** X18: once [configure_smtp] has set a server name that is not empty,
    [send_single_email] does not raise: it returns whether the session
    succeeded and has appended exactly one log entry, for the recipient
    and the subject, with status sent when it returns [true] and failed
    when it returns [false]. *)
Theorem configure_smtp_send_single_email host port user pass tls
    to_email subject body html_body attachments m :
  host <> "" ->
  exists (ok : bool) entry m',
    bind (configure_smtp host port user pass tls)
      (fun _ => send_single_email to_email subject body html_body attachments) m
    = (Return ok, m')
    /\ email_logs_collection m' = email_logs_collection m ++ [entry]
    /\ LogEntry.to_email entry = to_email
    /\ LogEntry.subject entry = subject
    /\ LogEntry.status entry = (if ok then "sent" else "failed").
Proof.
  intros Hhost. unfold bind at 1. unfold configure_smtp, modify.
  set (m0 := set_smtp_config _ m).
  destruct (smtp_session (smtp_config m0) to_email subject body html_body attachments
              (world m0)) as [outcome w1] eqn:Hsession.
  destruct (datetime_now w1) as [t w2] eqn:Hnow.
  rewrite (send_single_email_configured _ _ _ _ _ m0 outcome w1 t w2 Hhost Hsession Hnow).
  destruct outcome as [msg |]; eexists _, _, _; (split; [reflexivity |]);
    repeat split.
Qed.


End Compose.

(** ** Personalization: text without placeholders, and a second pass *)

Section PersonalizeAgain.

Lemma replace_without_open (old new s : string) :
  avoids "{" s = true -> PyStr.replace (String "{" old) new s = s.
Proof.
  intros Hs. unfold PyStr.replace.
  rewrite <- (app_empty_r s) at 1. rewrite replace_from_pass by exact Hs.
  simpl. apply app_empty_r.
Qed.

Lemma replace_each_without_open (items : list (string * string)) (s : string) :
  Forall (fun item => exists old, item.1 = String "{" old) items ->
  avoids "{" s = true -> replace_each items s = s.
Proof.
  intros Hitems Hs. induction Hitems as [| [old new] items [old' Hold] _ IH];
    [reflexivity |].
  unfold replace_each. cbn [foldl fst snd]. simpl in Hold. subst old.
  rewrite replace_without_open by exact Hs. exact IH.
Qed.

Lemma substitutions_open (contact : Contact) :
  Forall (fun item => exists old, item.1 = String "{" old) (substitutions contact).
Proof.
  rewrite substitutions_tokenize. apply Forall_fmap, Forall_forall.
  intros [name value] _. simpl. rewrite token_cons. eauto.
Qed.

(** X21: a text in which no opening brace occurs comes back from
    [personalize_email] unchanged, whatever the contact and its custom
    fields are. *)
Theorem personalize_email_no_brace (template_content : string) (contact : Contact) :
  avoids "{" template_content = true ->
  personalize_email template_content contact = template_content.
Proof.
  intros Hs. rewrite personalize_email_passes.
  apply replace_each_without_open; [apply substitutions_open | exact Hs].
Qed.

Lemma personalize_email_fill (chunks : list chunk) (contact : Contact) :
  well_formed chunks = true ->
  plain_contact contact = true ->
  personalize_email (template_text chunks) contact
  = template_text (fill_all (named_values contact) <$> chunks).
Proof.
  intros Hwf Hplain. rewrite personalize_email_passes, substitutions_tokenize.
  apply replace_each_fill; [apply named_values_plain, Hplain | exact Hwf].
Qed.

Lemma well_formed_fill_all (values : list (string * string)) (chunks : list chunk) :
  Forall plain_item values -> well_formed chunks = true ->
  well_formed (fill_all values <$> chunks) = true.
Proof.
  intros Hvalues. revert chunks.
  induction Hvalues as [| [name value] values [_ Hvalue] _ IH]; intros chunks Hwf.
  - unfold fill_all. simpl. rewrite list_fmap_id. exact Hwf.
  - assert (fill_all ((name, value) :: values) <$> chunks
            = fill_all values <$> (fill name value <$> chunks)) as ->
      by (rewrite <- list_fmap_compose; reflexivity).
    apply IH, well_formed_fill; assumption.
Qed.

Lemma fill_all_again (values : list (string * string)) (ch : chunk) :
  fill_all values (fill_all values ch) = fill_all values ch.
Proof.
  destruct ch as [text | m]; [rewrite !fill_all_lit; reflexivity |].
  rewrite fill_all_hole.
  destruct ((list_to_map values : gmap string string) !! m) as [v |] eqn:Hm; simpl.
  - apply fill_all_lit.
  - rewrite fill_all_hole, Hm. reflexivity.
Qed.

(** X22: on a template of brace-free text and placeholders with
    brace-free names, and a contact whose values and custom-field names
    hold no brace, personalizing the result of [personalize_email] a
    second time for the same contact changes nothing. *)
Theorem personalize_email_twice (chunks : list chunk) (contact : Contact) :
  well_formed chunks = true ->
  plain_contact contact = true ->
  personalize_email (personalize_email (template_text chunks) contact) contact
  = personalize_email (template_text chunks) contact.
Proof.
  intros Hwf Hplain. pose proof (named_values_plain contact Hplain) as Hvalues.
  rewrite (personalize_email_fill chunks) by assumption.
  rewrite personalize_email_fill
    by (try apply well_formed_fill_all; assumption).
  rewrite <- list_fmap_compose. f_equal. apply list_fmap_ext.
  intros _ ch _. apply fill_all_again.
Qed.

End PersonalizeAgain.

(** ** The further properties on the concrete scenario *)

Section Scenarios.
Import Scenario Fixtures.

Lemma NoDup_fmap_eq {A B} (g : A -> B) (l : list A) (a b : A) :
  NoDup (g <$> l) -> a ∈ l -> b ∈ l -> g a = g b -> a = b.
Proof.
  induction l as [| x l IH]; intros Hnodup Ha Hb Hg; [inversion Ha |].
  rewrite fmap_cons in Hnodup. apply NoDup_cons in Hnodup as [Hx Hnodup].
  apply elem_of_cons in Ha as [-> | Ha]; apply elem_of_cons in Hb as [-> | Hb].
  - reflexivity.
  - exfalso. apply Hx. rewrite Hg. apply list_elem_of_fmap. eauto.
  - exfalso. apply Hx. rewrite <- Hg. apply list_elem_of_fmap. eauto.
  - auto.
Qed.

(** The unique index, checked on the documents of a collection. *)
Lemma unique_by_NoDup {A B} (f : A -> B) (coll : gmap string A) :
  NoDup ((fun kv => f kv.2) <$> map_to_list coll) -> unique_by f coll.
Proof.
  intros Hnodup i j x y Hi Hj Hf.
  apply elem_of_map_to_list in Hi, Hj.
  pose proof (NoDup_fmap_eq _ _ (i, x) (j, y) Hnodup Hi Hj Hf) as Heq.
  congruence.
Qed.

Lemma scenario_unique_emails cfg : unique_by email (contacts_collection (manager cfg)).
Proof. apply unique_by_NoDup, (bool_decide_unpack _). vm_compute. exact I. Qed.

Lemma scenario_unique_lists cfg :
  unique_by ContactList.name (contact_lists_collection (manager cfg)).
Proof. apply unique_by_NoDup, (bool_decide_unpack _). vm_compute. exact I. Qed.

(** X1, on a@x.com. *)
Lemma validate_email_one_at_scenario : count_char "@" "a@x.com" = 1%nat.
Proof. refine (validate_email_one_at "a@x.com" _). vm_compute. reflexivity. Defined.

(** X2, on a@x.com. *)
Lemma validate_email_characters_scenario :
  all_chars address_char "a@x.com" = true /\ count_char " " "a@x.com" = 0%nat.
Proof. refine (validate_email_characters "a@x.com" _). vm_compute. reflexivity. Defined.

(** X3, on a@x.com. *)
Lemma validate_email_trailing_newline_scenario :
  validate_email ("a@x.com" +:+ String newline "") = true.
Proof.
  refine (validate_email_trailing_newline "a@x.com" _ _); vm_compute; reflexivity.
Defined.

(** X4, on a second contact with the address a@x.com. *)
Lemma add_contact_refused_scenario :
  let m := manager gmail in
  let e := ValueError "Contact with email a@x.com already exists" in
  let m' := (add_contact "c3" contact_a m).2 in
  (exists msg, e = ValueError msg)
  /\ contacts_collection m' = contacts_collection m
  /\ templates_collection m' = templates_collection m
  /\ campaigns_collection m' = campaigns_collection m
  /\ contact_lists_collection m' = contact_lists_collection m
  /\ email_logs_collection m' = email_logs_collection m
  /\ (validate_email (email contact_a) = false
      \/ is_Some (contacts_collection m !! "c3")
      \/ exists k c, contacts_collection m !! k = Some c /\ email c = email contact_a).
Proof.
  refine (add_contact_refused "c3" contact_a (manager gmail)
            (ValueError "Contact with email a@x.com already exists")
            (add_contact "c3" contact_a (manager gmail)).2 _).
  vm_compute. reflexivity.
Defined.

(** X5, on c@x.com added to the store of the scenario. *)
Lemma add_contact_get_contact_scenario :
  exists m',
    add_contact "c3" contact_c (manager gmail) = (Return "c3", m')
    /\ contacts_collection m' = <["c3" := contact_c]> (contacts_collection (manager gmail))
    /\ get_contact (email contact_c) m' = (Return (Some contact_c), m').
Proof.
  refine (add_contact_get_contact "c3" contact_c (manager gmail) _ _ _).
  - vm_compute. reflexivity.
  - vm_compute. reflexivity.
  - apply (proj1 (find_one_None _ _)). vm_compute. reflexivity.
Defined.

(** X6, on c@x.com added to the store of the scenario. *)
Lemma add_contact_unique_emails_scenario :
  unique_by email (contacts_collection (add_contact "c3" contact_c (manager gmail)).2).
Proof.
  refine (add_contact_unique_emails "c3" contact_c (manager gmail)
            (add_contact "c3" contact_c (manager gmail)).1
            (add_contact "c3" contact_c (manager gmail)).2 _ _).
  - apply scenario_unique_emails.
  - vm_compute. reflexivity.
Defined.

(** X7, on a@x.com deleted from the store of the scenario. *)
Lemma delete_contact_get_contact_scenario :
  let m := manager gmail in
  exists (deleted : bool) m',
    delete_contact "a@x.com" m = (Return deleted, m')
    /\ (deleted = true <->
        exists k c, contacts_collection m !! k = Some c /\ email c = "a@x.com")
    /\ get_contact "a@x.com" m' = (Return None, m')
    /\ (forall k c, contacts_collection m !! k = Some c -> email c <> "a@x.com" ->
          contacts_collection m' !! k = Some c).
Proof.
  refine (delete_contact_get_contact "a@x.com" (manager gmail) _).
  apply scenario_unique_emails.
Defined.

(** X9, on b@x.com added to list A. *)
Lemma add_contacts_to_list_members_scenario :
  let m := manager gmail in
  exists n m' list_doc',
    add_contacts_to_list "A" ["b@x.com"] m = (Return n, m')
    /\ contact_lists_collection m' !! "listA" = Some list_doc'
    /\ ContactList.name list_doc' = "A"
    /\ NoDup (ContactList.contact_ids list_doc')
    /\ (exists added, ContactList.contact_ids list_doc' = ["c1"] ++ added)
    /\ (forall k c, contacts_collection m !! k = Some c -> email c ∈ ["b@x.com"] ->
          k ∈ ContactList.contact_ids list_doc').
Proof.
  refine (add_contacts_to_list_members ["b@x.com"] (manager gmail) "listA" list_a _ _ _ _).
  - apply scenario_unique_lists.
  - apply scenario_unique_emails.
  - vm_compute. reflexivity.
  - apply NoDup_singleton.
Defined.

(** X10, on b@x.com added to list A twice. *)
Lemma add_contacts_to_list_twice_scenario :
  let m' := (add_contacts_to_list "A" ["b@x.com"] (manager gmail)).2 in
  add_contacts_to_list "A" ["b@x.com"] m' = (Return 0, m').
Proof.
  refine (add_contacts_to_list_twice "A" ["b@x.com"] (manager gmail) 1
            (add_contacts_to_list "A" ["b@x.com"] (manager gmail)).2 _ _).
  - apply scenario_unique_lists.
  - vm_compute. reflexivity.
Defined.

(** X11, on list A, which holds c1: of the three addresses only b@x.com
    adds an id, and the count returned is 3. *)
Lemma add_contacts_to_list_count_scenario :
  exists m',
    add_contacts_to_list "A" ["b@x.com"; "a@x.com"; "b@x.com"] (manager gmail)
    = (Return (Z.of_nat (length (resolve_emails (contacts_collection (manager gmail))
                                   ["b@x.com"; "a@x.com"; "b@x.com"]))), m').
Proof.
  refine (add_contacts_to_list_count ["b@x.com"; "a@x.com"; "b@x.com"] (manager gmail)
            "listA" list_a "c2" _ _ _ _).
  - apply scenario_unique_lists.
  - vm_compute. reflexivity.
  - apply (bool_decide_unpack _). vm_compute. exact I.
  - apply (bool_decide_unpack _). vm_compute. exact I.
Defined.

(** X12, on the store of the scenario, whose two lists have members. *)
Lemma get_contact_list_contacts_outcome_scenario :
  let m := manager gmail in
  (forall list_id list_doc,
      contact_lists_collection m !! list_id = Some list_doc ->
      get_contact_list_contacts (ContactList.name list_doc) m
      = (match ContactList.contact_ids list_doc with
         | [] => Return []
         | _ :: _ => Raise (AttributeError no_ObjectId)
         end, m))
  /\ (forall list_name,
        (forall list_id list_doc, contact_lists_collection m !! list_id = Some list_doc ->
                                  ContactList.name list_doc <> list_name) ->
        get_contact_list_contacts list_name m = (Return [], m)).
Proof.
  refine (get_contact_list_contacts_outcome (manager gmail) _).
  apply scenario_unique_lists.
Defined.

(** X13, on a campaign with a new name. *)
Lemma create_campaign_names_scenario :
  let m := manager gmail in
  let r := Return "k2" in
  let m' := (create_campaign "k2" spring m).2 in
  NoDup (CampaignDoc.name <$> campaigns_collection m')
  /\ ((Campaign.name spring ∈ CampaignDoc.name <$> campaigns_collection m
       /\ r = Raise (ValueError ("Campaign with name '" +:+ Campaign.name spring
                                 +:+ "' already exists"))
       /\ m' = m)
      \/ ((Campaign.name spring ∉ CampaignDoc.name <$> campaigns_collection m)
          /\ r = Return "k2"
          /\ list_campaigns m'
             = (Return ((CampaignDoc.name <$> campaigns_collection m)
                        ++ [Campaign.name spring]), m'))).
Proof.
  refine (create_campaign_names "k2" spring (manager gmail) (Return "k2")
            (create_campaign "k2" spring (manager gmail)).2 _ _).
  - apply (bool_decide_unpack _). vm_compute. exact I.
  - vm_compute. reflexivity.
Defined.


(** X18, on the store of the scenario before any configuration. *)
Lemma configure_smtp_send_single_email_scenario :
  let m := manager smtp_unconfigured in
  exists (ok : bool) entry m',
    bind (configure_smtp "smtp.gmail.com" 587 "sender@x.com" "secret" true)
      (fun _ => send_single_email "b@x.com" "Hi Bo!" "Hello" "" None) m
    = (Return ok, m')
    /\ email_logs_collection m' = email_logs_collection m ++ [entry]
    /\ LogEntry.to_email entry = "b@x.com"
    /\ LogEntry.subject entry = "Hi Bo!"
    /\ LogEntry.status entry = (if ok then "sent" else "failed").
Proof.
  refine (configure_smtp_send_single_email "smtp.gmail.com" 587 "sender@x.com" "secret"
            true "b@x.com" "Hi Bo!" "Hello" "" None (manager smtp_unconfigured) _).
  discriminate.
Defined.


(** X21, on a text with closing braces only. *)
Lemma personalize_email_no_brace_scenario :
  personalize_email "first_name}} and }}" contact_a = "first_name}} and }}".
Proof. refine (personalize_email_no_brace "first_name}} and }}" contact_a _). reflexivity. Defined.

(** X22, on a template with a placeholder that stays. *)
Lemma personalize_email_twice_scenario :
  personalize_email (personalize_email (template_text salutation) contact_a) contact_a
  = personalize_email (template_text salutation) contact_a.
Proof. refine (personalize_email_twice salutation contact_a _ _); reflexivity. Defined.

End Scenarios.
